(** * AGE System world migration (modules/migration.js)

    A shallow embedding of the migration module of the AGE System plugin:
    the patch functions for Items, Actors and Scenes, the compendium walker
    and the world orchestrator, together with the properties the
    specification states about them.

    Host records are JSON data, so they are modelled by a small type of
    JavaScript values.  A property read on [undefined] or [null], and a
    read of an identifier that is bound nowhere, raise an exception, as
    they do in the source. *)

From Stdlib Require Import ZArith Ascii.
From stdpp Require Import base option list strings functions.

Local Open Scope string_scope.
Local Open Scope list_scope.

Set Warnings "-register-all".

(* ================================================================= *)
(** ** JavaScript values *)

(** The data held by the host is JSON; [VUndef] is what a read of an
    absent property yields.  Numbers are kept as integers: the module
    only writes the constants 0, 1 and 6 and only tests numbers for
    truthiness.  An object is the list of its own enumerable properties
    in insertion order. *)
Inductive value : Type :=
| VUndef
| VNull
| VBool (b : bool)
| VNum (n : Z)
| VStr (s : string)
| VArr (xs : list value)
| VObj (fields : list (string * value)).

(** The update data handed to the host is itself a plain object whose
    keys are dotted field paths. *)
Abbreviation obj := (list (string * value)).

(** What is thrown: an [Error] object, of the language ([ReferenceError],
    [TypeError], [SyntaxError]) or of the host, with its [message].  The
    wording of a message is the engine's; only its kind matters below.
    The language raises [Error] objects only; a promise of the host may
    be rejected with any value, also with one that is no object
    ([undefined], [null], a string, a number, a boolean): such a value
    has the kind [NonObject], and [message] then holds what the value
    reads as. *)
Inductive errkind : Type :=
  ReferenceError | TypeError | SyntaxError | HostError | NonObject.

Record exn : Type := Exn { kind : errkind; message : string }.

Inductive result (A : Type) : Type :=
| Ok (a : A)
| Throw (e : exn).
Arguments Ok {A} a.
Arguments Throw {A} e.

#[global] Instance result_ret : MRet result := @Ok.
#[global] Instance result_bind : MBind result :=
  λ A B f m, match m with Ok a => f a | Throw e => Throw e end.

(** *** Objects *)

Fixpoint lookup_field (k : string) (fs : obj) : option value :=
  match fs with
  | [] => None
  | (k', v) :: rest => if String.eqb k k' then Some v else lookup_field k rest
  end.

(** [o[k] = v]: an existing property keeps its position, a new one is
    added last. *)
Fixpoint set_field (k : string) (v : value) (fs : obj) : obj :=
  match fs with
  | [] => [(k, v)]
  | (k', v') :: rest =>
      if String.eqb k k' then (k', v) :: rest else (k', v') :: set_field k v rest
  end.

(** [delete o[k]]. *)
Fixpoint delete_field (k : string) (fs : obj) : obj :=
  match fs with
  | [] => []
  | (k', v') :: rest =>
      if String.eqb k k' then delete_field k rest else (k', v') :: delete_field k rest
  end.

(** [o.hasOwnProperty(k)] for a plain object. *)
Definition has_field (k : string) (fs : obj) : bool :=
  match lookup_field k fs with Some _ => true | None => false end.

(** *** Primitive operations *)

Definition nullish_name (v : value) : string :=
  match v with VNull => "null" | _ => "undefined" end.

Definition cannot_read (k : string) (v : value) : exn :=
  Exn TypeError ("Cannot read property '" +:+ k +:+ "' of " +:+ nullish_name v).

(** [v.k] (or [v[k]]) for the property names this module reads: none of
    them is an array index, [length], or inherited from a prototype, so
    arrays and primitives answer [undefined]. *)
Definition getProp (v : value) (k : string) : result value :=
  match v with
  | VUndef | VNull => Throw (cannot_read k v)
  | VObj fs => Ok (default VUndef (lookup_field k fs))
  | _ => Ok VUndef
  end.

(** ToBoolean. *)
Definition truthy (v : value) : bool :=
  match v with
  | VUndef | VNull => false
  | VBool b => b
  | VNum n => negb (Z.eqb n 0)
  | VStr s => negb (String.eqb s "")
  | VArr _ | VObj _ => true
  end.

(** [v === "s"]. *)
Definition is_str (v : value) (s : string) : bool :=
  match v with VStr s' => String.eqb s' s | _ => false end.

(** [typeof v === "object"]. *)
Definition typeof_object (v : value) : bool :=
  match v with VNull | VArr _ | VObj _ => true | _ => false end.

(** [a || b] on conditions: [b] is evaluated only when [a] is false. *)
Definition or_else (a b : result bool) : result bool :=
  x ← a; if x : bool then Ok true else b.
Infix "|||" := or_else (at level 50, left associativity).

(** An identifier that no scope binds: evaluating it raises. *)
Definition unbound {A} (x : string) : result A :=
  Throw (Exn ReferenceError (x +:+ " is not defined")).

(* ================================================================= *)
(** ** Host helpers *)

(** Modelled from the spec: [isObjectEmpty] is a helper of the host, not
    of this repository; the specification reads it as "the patch contains
    no keys". *)
Definition isObjectEmpty (o : obj) : bool :=
  match o with [] => true | _ => false end.

(** JSON data: no [undefined] anywhere inside. *)
Fixpoint is_json (v : value) : bool :=
  match v with
  | VUndef => false
  | VArr xs => forallb is_json xs
  | VObj fs => forallb (λ kv, is_json kv.2) fs
  | _ => true
  end.

(** What a JSON round trip makes of a value: a property holding
    [undefined] is left out, [undefined] in an array becomes [null]. *)
Fixpoint json_copy (v : value) : value :=
  match v with
  | VArr xs =>
      VArr (map (λ x, match x with VUndef => VNull | _ => json_copy x end) xs)
  | VObj fs =>
      VObj (omap (λ kv, match kv.2 with
                        | VUndef => None
                        | _ => Some (kv.1, json_copy kv.2)
                        end) fs)
  | _ => v
  end.

(** Modelled from the spec: [duplicate] is the host's deep copy through a
    JSON round trip.  The copy shares nothing with the original;
    [undefined] has no JSON text, so its round trip fails to parse. *)
Definition duplicate (v : value) : result value :=
  match v with
  | VUndef => Throw (Exn SyntaxError "Unexpected token u in JSON at position 0")
  | _ => Ok (json_copy v)
  end.

(* ================================================================= *)
(** ** Item patch function *)

(** [_addItemModSpeed] *)
Definition _addItemModSpeed (item : value) (updateData : obj) : result obj :=
  ty ← getProp item "type";
  if is_str ty "focus" || is_str ty "honorifics" || is_str ty "relationship"
     || is_str ty "membership" || is_str ty "stunts"
  then Ok updateData
  else
    data ← getProp item "data";
    itemMods ← getProp data "itemMods";
    speed ← getProp itemMods "speed";
    if truthy speed then Ok updateData
    else
      let updateData := set_field "data.itemMods.speed" (VObj []) updateData in
      let updateData := set_field "data.itemMods.speed.isActive" (VBool false) updateData in
      let updateData := set_field "data.itemMods.speed.value" (VNum 0) updateData in
      Ok updateData.

(** [_addExtraPowerData] *)
Definition _addExtraPowerData (item : value) (updateData : obj) : result obj :=
  ty ← getProp item "type";
  if negb (is_str ty "power") then Ok updateData
  else
    data ← getProp item "data";
    ablFatigue ← getProp data "ablFatigue";
    if truthy ablFatigue then Ok updateData
    else
      let updateData := set_field "data.causeHealing" (VBool false) updateData in
      let updateData := set_field "data.ablFatigue" (VStr "will") updateData in
      let updateData := set_field "data.hasTest" (VBool false) updateData in
      let updateData := set_field "data.testAbl" (VStr "will") updateData in
      let updateData := set_field "data.testFocus" (VStr "") updateData in
      let updateData := set_field "data.damageResisted" (VObj []) updateData in
      let updateData := set_field "data.damageResisted.nrDice" (VNum 1) updateData in
      let updateData := set_field "data.damageResisted.diceType" (VNum 6) updateData in
      let updateData := set_field "data.damageResisted.extraValue" (VNum 0) updateData in
      let updateData := set_field "data.damageResisted.dmgAbl" (VStr "will") updateData in
      Ok updateData.

(** [_addItemValidResistedDmgAbl] *)
Definition _addItemValidResistedDmgAbl (item : value) (updateData : obj) : result obj :=
  ty ← getProp item "type";
  if negb (is_str ty "power") then Ok updateData
  else
    data ← getProp item "data";
    damageResisted ← getProp data "damageResisted";
    if truthy damageResisted then
      dmgAbl ← getProp damageResisted "dmgAbl";
      if negb (truthy dmgAbl)
      then Ok (set_field "data.damageResisted.dmgAbl" (VStr "will") updateData)
      else Ok updateData
    else Ok updateData.

(** [_addItemForceAbl] *)
Definition _addItemForceAbl (item : value) (updateData : obj) : result obj :=
  ty ← getProp item "type";
  if negb (is_str ty "power") then Ok updateData
  else
    data ← getProp item "data";
    itemForceAbl ← getProp data "itemForceAbl";
    if truthy itemForceAbl then Ok updateData
    else Ok (set_field "data.itemForceAbl" (VStr "will") updateData).

(** [migrateItemData] *)
Definition migrateItemData (item : value) : result obj :=
  let updateData := [] in
  updateData ← _addItemModSpeed item updateData;
  updateData ← _addItemValidResistedDmgAbl item updateData;
  updateData ← _addExtraPowerData item updateData;
  updateData ← _addItemForceAbl item updateData;
  Ok updateData.

(* ================================================================= *)
(** ** Mutable records *)

(** A computation that may raise and that works on one mutable cell of
    type [S]; what was written before a raise stays written. *)
Definition M (S A : Type) : Type := S → result A * S.

#[global] Instance M_ret {S} : MRet (M S) := λ A a s, (Ok a, s).
#[global] Instance M_bind {S} : MBind (M S) :=
  λ A B f m s, match m s with
               | (Ok a, s') => f a s'
               | (Throw e, s') => (Throw e, s')
               end.

Definition lift {S A} (r : result A) : M S A := λ s, (r, s).
Definition get {S} : M S S := λ s, (Ok s, s).
Definition put {S} (s : S) : M S unit := λ _, (Ok tt, s).

(** [try { m } catch (err) { h err }] *)
Definition try_catch {S A} (m : M S A) (h : exn → M S A) : M S A :=
  λ s, match m s with
       | (Throw e, s') => h e s'
       | r => r
       end.

(** [for (let x of xs) { body x }] *)
Fixpoint for_of {S A} (xs : list A) (body : A → M S unit) : M S unit :=
  match xs with
  | [] => mret tt
  | x :: rest => _ ← body x; for_of rest body
  end.

(* ================================================================= *)
(** ** Actor patch function *)

Definition conditions : list string :=
  ["blinded"; "deafened"; "exhausted"; "fatigued"; "freefalling"; "helpless"; "hindred";
   "prone"; "restrained"; "injured"; "wounded"; "unconscious"; "dying"].

(** [v.hasOwnProperty(k)] is evaluated in three steps: the method is
    looked up on [v], then the argument is evaluated, then the method is
    called.  An own property of that name (never a function in JSON data)
    shadows the built-in method. *)
Definition method_hasOwnProperty (v : value) : result (option value) :=
  match v with
  | VUndef | VNull => Throw (cannot_read "hasOwnProperty" v)
  | VObj fs => Ok (lookup_field "hasOwnProperty" fs)
  | _ => Ok None
  end.

Definition call_hasOwnProperty (v : value) (method : option value) (k : string)
  : result bool :=
  match method with
  | Some _ => Throw (Exn TypeError "hasOwnProperty is not a function")
  | None => Ok match v with VObj fs => has_field k fs | _ => false end
  end.

Definition hasOwnProperty (v : value) (k : string) : result bool :=
  method ← method_hasOwnProperty v;
  call_hasOwnProperty v method k.

(** [delete actor.data.conditions], on the record the caller handed in. *)
Definition delete_data_conditions (actor : value) : value :=
  match actor with
  | VObj fs =>
      match lookup_field "data" fs with
      | Some (VObj dfs) => VObj (set_field "data" (VObj (delete_field "conditions" dfs)) fs)
      | _ => actor
      end
  | _ => actor
  end.

(** [_addActorConditions]; the mutable cell is the actor record.  The
    second loop assigns through [udpateData], a name that is bound
    nowhere. *)
Definition _addActorConditions (updateData : obj) : M value obj :=
  actor ← get;
  ty ← lift (getProp actor "type");
  if negb (is_str ty "char") then mret updateData
  else
    data ← lift (getProp actor "data");
    cur ← lift (getProp data "conditions");
    complete ←
      (if truthy cur then
         if typeof_object cur then
           owned ← lift (mapM (hasOwnProperty cur) conditions);
           mret (forallb id owned)
         else
           _ ← put (delete_data_conditions actor);
           mret false
       else mret false);
    if complete : bool then mret updateData
    else
      actor ← get;
      data ← lift (getProp actor "data");
      cur ← lift (getProp data "conditions");
      if negb (truthy cur) then
        let updateData := set_field "data.conditions" (VObj []) updateData in
        _ ← lift (mapM (λ cond,
                    let condString := "data.conditions." +:+ cond in
                    udpateData ← unbound "udpateData";
                    Ok (set_field condString (VBool false) udpateData))
                  conditions);
        mret updateData
      else mret updateData.

(** [_addVehicleCustomDmg]; both arguments of [hasOwnProperty] are bare
    identifiers, bound nowhere. *)
Definition _addVehicleCustomDmg (actor : value) (updateData : obj) : result obj :=
  ty ← getProp actor "type";
  if negb (is_str ty "vehicle") then Ok updateData
  else
    data ← getProp actor "data";
    method ← method_hasOwnProperty data;
    customSideswipeDmg ← unbound "customSideswipeDmg";
    has ← call_hasOwnProperty data method customSideswipeDmg;
    let updateData :=
      if negb has then set_field "data.customSideswipeDmg" (VNum 1) updateData
      else updateData in
    data ← getProp actor "data";
    method ← method_hasOwnProperty data;
    customCollisionDmg ← unbound "customCollisionDmg";
    has ← call_hasOwnProperty data method customCollisionDmg;
    let updateData :=
      if negb has then set_field "data.customCollisionDmg" (VNum 1) updateData
      else updateData in
    Ok updateData.

(** [o.map(f)], where only an array has a [map] method. *)
Definition array_map {B} (what : string) (o : value) (f : value → result B)
  : result (list B) :=
  match o with
  | VArr xs => mapM f xs
  | VUndef | VNull => Throw (cannot_read "map" o)
  | _ => Throw (Exn TypeError (what +:+ ".map is not a function"))
  end.

(** [t.k = v]; the module is strict code, so the assignment raises on a
    primitive.  A named property put on an array is not part of its JSON
    data. *)
Definition setProp (t : value) (k : string) (v : value) : result value :=
  match t with
  | VObj fs => Ok (VObj (set_field k v fs))
  | VArr xs => Ok (VArr xs)
  | VUndef | VNull =>
      Throw (Exn TypeError ("Cannot set property '" +:+ k +:+ "' of " +:+ nullish_name t))
  | _ => Throw (Exn TypeError ("Cannot create property '" +:+ k +:+ "'"))
  end.

(** The helpers the host provides as globals.  [mergeObject(original,
    other)] is the record [original] with the update data [other] merged
    in; its algorithm belongs to the host, and the functions below only
    hand it their arguments.  [tokenActor t] is [new Token(t).actor]: the
    actor the host resolves for the token data [t], if any. *)
Class Helpers : Type := {
  mergeObject : value → obj → result value;
  tokenActor : value → option value;
}.

Section Host.

Context {helpers : Helpers}.

(** The callback of [actor.items.map]: the item to keep, and whether it
    was updated. *)
Definition migrateOwnedItem (i : value) : result (bool * value) :=
  itemUpdate ← migrateItemData i;
  if negb (isObjectEmpty itemUpdate) then
    merged ← mergeObject i itemUpdate;
    Ok (true, merged)
  else Ok (false, i).

(** [migrateActorData], on the actor record as a mutable cell. *)
Definition migrateActorData_st : M value obj :=
  let updateData := [] in
  updateData ← _addActorConditions updateData;
  actor ← get;
  updateData ← lift (_addVehicleCustomDmg actor updateData);
  items ← lift (getProp actor "items");
  if negb (truthy items) then mret updateData
  else
    migrated ← lift (array_map "actor.items" items migrateOwnedItem);
    let hasItemUpdates := existsb fst migrated in
    let items := snd <$> migrated in
    if hasItemUpdates then mret (set_field "items" (VArr items) updateData)
    else mret updateData.

(** [migrateActorData]: the update data it returns. *)
Definition migrateActorData (actor : value) : result obj :=
  fst (migrateActorData_st actor).

(** The callback of [tokens.map] in [migrateSceneData]; [token.data]
    is the token data [t] the [Token] was built from. *)
Definition migrateToken (t : value) : result value :=
  clear ← (actorId ← getProp t "actorId"; Ok (negb (truthy actorId)))
          ||| (actorLink ← getProp t "actorLink"; Ok (truthy actorLink))
          ||| (actorData ← getProp t "actorData";
               data ← getProp actorData "data";
               Ok (negb (truthy data)));
  if clear : bool then setProp t "actorData" (VObj [])
  else
    match tokenActor t with
    | None =>
        t ← setProp t "actorId" VNull;
        setProp t "actorData" (VObj [])
    | Some _ =>
        actorLink ← getProp t "actorLink";
        if negb (truthy actorLink) then
          actorData ← getProp t "actorData";
          let '(outcome, actorData) := migrateActorData_st actorData in
          updateData ← outcome;
          merged ← mergeObject actorData updateData;
          setProp t "actorData" merged
        else Ok t
    end.

(** [migrateSceneData] *)
Definition migrateSceneData (scene : value) : result obj :=
  tokens ← getProp scene "tokens";
  tokens ← duplicate tokens;
  tokens ← array_map "tokens" tokens migrateToken;
  Ok [("tokens", VArr tokens)].

End Host.

(* ================================================================= *)
(** ** The host world *)

(** A document of a world collection or an entry of a compendium pack:
    [name], [_id] and [data]. *)
Record entity : Type := Entity {
  ent_name : string;
  ent_id : value;
  ent_data : value;
}.

Inductive doctype : Type := Actor | Item | Scene.

Definition doctype_name (k : doctype) : string :=
  match k with Actor => "Actor" | Item => "Item" | Scene => "Scene" end.

(** A pack handle: [collection], [metadata.package], [metadata.entity],
    and the entries [getContent] delivers. *)
Record pack : Type := Pack {
  collection : string;
  package : string;
  pack_entity : string;
  content : list entity;
}.

(** What the module asks of the host, in the order it asks.  A call
    carries the document or the pack it is made on. *)
Inductive event : Type :=
| NotifyInfo (msg : string)
| ConsoleLog (msg : string)
| ConsoleError (err : exn)
| EntityUpdate (k : doctype) (e : entity) (updateData : obj)
| PackConfigure (p : pack) (lock : bool)
| PackMigrate (p : pack)
| PackGetContent (p : pack)
| PackUpdateEntity (p : pack) (e : entity) (updateData : obj)
| SettingsSet (module key val : string).

(** The part of the host the module can change or observe: the [locked]
    flag of each pack, by collection name, the calls made so far, and
    the calls among them that the module did not wait for and that the
    host has still to carry out ([pending]). *)
Record world : Type := World {
  locked : string → bool;
  trace : list event;
  pending : list event;
}.

Definition record (c : event) (w : world) : world :=
  World (locked w) (trace w ++ [c]) (pending w).

(** A call that the host has taken and not yet carried out. *)
Definition defer (c : event) (w : world) : world :=
  World (locked w) (trace w) (pending w ++ [c]).

(** Modelled from the spec: what a call changes when the host carries
    it out is the host's work; the specification has [configure] set the
    pack's [locked] flag, and the module observes no other change. *)
Definition effect (c : event) (w : world) : world :=
  match c with
  | PackConfigure p lock =>
      World (<[collection p := lock]> (locked w)) (trace w) (pending w)
  | _ => w
  end.

(** [err.message = prefix + err.message], in the strict code of a
    module: on an object the message is replaced; on a value that is no
    object the assignment raises a [TypeError] (on [undefined] and
    [null] the read of [message] does). *)
Definition annotate (prefix : string) (err : exn) : result exn :=
  match kind err with
  | NonObject =>
      Throw (Exn TypeError ("Cannot create property 'message' on " +:+ message err))
  | k => Ok (Exn k (prefix +:+ message err))
  end.

(** [console.log], [console.error], [ui.notifications.info]. *)
Definition emit (c : event) : M world unit :=
  λ w, (Ok tt, record c w).

(** The host as a server of calls: [rejects before c] tells whether the
    host rejects the call [c], made after the calls [before], and with
    what error. *)
Class Server : Type := {
  rejects : list event → event → option exn;
}.

Section World.

Context {helpers : Helpers} {server : Server}.

(** [await call]: a rejection is raised in the caller. *)
Definition await (c : event) : M world unit :=
  λ w, match rejects (trace w) c with
       | Some err => (Throw err, record c w)
       | None => (Ok tt, effect c (record c w))
       end.

(** A call whose promise is dropped: the caller goes on at once.  A
    rejection is raised nowhere, and what the call changes is changed
    when the host carries the call out, which the caller does not wait
    for: the call is left [pending].  When the host carries a pending
    call out is the host's: no run below does it, and what holds once it
    is done is stated with [effect]. *)
Definition detached (c : event) : M world unit :=
  λ w, match rejects (trace w) c with
       | Some err => (Ok tt, record c w)
       | None => (Ok tt, defer c (record c w))
       end.

(** [catch (err) { err.message = prefix + err.message; console.error(err) }],
    the handler of each of the four loops. *)
Definition caught (prefix : string) (err : exn) : M world unit :=
  err ← lift (annotate prefix err);
  emit (ConsoleError err).

(** The patch function of a collection.  What [migrateActorData] may
    delete on the data it is handed is not kept here: of a document it
    has handed over, the orchestrator reads only the name. *)
Definition migrateData (k : doctype) (data : value) : result obj :=
  match k with
  | Actor => migrateActorData data
  | Item => migrateItemData data
  | Scene => migrateSceneData data
  end.

(** How the message of a failure starts, in each of the three loops. *)
Definition failure_prefix (k : doctype) : string :=
  match k with
  | Actor => "Failed AGE System migration for Actor "
  | Item => "Failed AGE System migration for Item "
  | Scene => "Failed age-system migration for Scene "
  end.

(** The body of each of the three loops over the world's documents. *)
Definition migrateDocument (k : doctype) (a : entity) : M world unit :=
  try_catch
    (updateData ← lift (migrateData k (ent_data a));
     if negb (isObjectEmpty updateData) then
       _ ← emit (ConsoleLog ("Migrating " +:+ doctype_name k +:+ " entity " +:+ ent_name a));
       await (EntityUpdate k a updateData)
     else mret tt)
    (caught (failure_prefix k +:+ ent_name a +:+ ": ")).

(** [["Actor", "Item", "Scene"].includes(entity)] *)
Definition supported (entity : string) : bool :=
  String.eqb entity "Actor" || String.eqb entity "Item" || String.eqb entity "Scene".

(** The [switch (entity)] of [migrateCompendium]: without a matching
    case the update data stays empty. *)
Definition migrateEntry (entity : string) (data : value) : result obj :=
  if String.eqb entity "Actor" then migrateActorData data
  else if String.eqb entity "Item" then migrateItemData data
  else if String.eqb entity "Scene" then migrateSceneData data
  else Ok [].

(** The body of the loop over a pack's entries. *)
Definition migratePackEntry (p : pack) (ent : entity) : M world unit :=
  let entity := pack_entity p in
  try_catch
    (updateData ← lift (migrateEntry entity (ent_data ent));
     if isObjectEmpty updateData then mret tt
     else
       let updateData := set_field "_id" (ent_id ent) updateData in
       _ ← await (PackUpdateEntity p ent updateData);
       emit (ConsoleLog ("Migrated " +:+ entity +:+ " entity " +:+ ent_name ent
                         +:+ " in Compendium " +:+ collection p)))
    (caught ("Failed age-system system migration for entity "
             +:+ ent_name ent +:+ " in pack " +:+ collection p +:+ ": ")).

(** [migrateCompendium] *)
Definition migrateCompendium (p : pack) : M world unit :=
  let entity := pack_entity p in
  if negb (supported entity) then mret tt
  else
    w ← get;
    let wasLocked := locked w (collection p) in
    _ ← await (PackConfigure p false);
    _ ← await (PackMigrate p);
    _ ← await (PackGetContent p);
    let content := content p in
    _ ← for_of content (migratePackEntry p);
    _ ← detached (PackConfigure p wasLocked);
    emit (ConsoleLog ("Migrated all " +:+ entity +:+ " entities from Compendium "
                      +:+ collection p)).

(** The ambient [game] object: the system version, the world's
    documents and the packs. *)
Record game : Type := Game {
  version : string;
  actors : list entity;
  items : list entity;
  scenes : list entity;
  packs : list pack;
}.

(** [migrateWorld] *)
Definition migrateWorld (g : game) : M world unit :=
  _ ← emit (NotifyInfo ("Applying AGE System Migration for version " +:+ version g
                        +:+ ". Please be patient and do not close your game or shut down your server."));
  _ ← for_of (actors g) (migrateDocument Actor);
  _ ← for_of (items g) (migrateDocument Item);
  _ ← for_of (scenes g) (migrateDocument Scene);
  _ ← for_of (packs g) (λ p,
        if negb (String.eqb (package p) "world") then mret tt
        else if negb (supported (pack_entity p)) then mret tt
        else migrateCompendium p);
  _ ← detached (SettingsSet "age-system" "systemMigrationVersion" (version g));
  emit (NotifyInfo ("AGE System Migration to version " +:+ version g +:+ " completed!")).

End World.

(* ================================================================= *)
(** ** Field paths and merging *)

(** The segments of a dotted key: ["data.itemMods.speed"] names the path
    [data], [itemMods], [speed]. *)
Fixpoint split_dots (s cur : string) : list string :=
  match s with
  | EmptyString => [cur]
  | String c rest =>
      if Ascii.eqb c "."%char then cur :: split_dots rest ""
      else split_dots rest (cur +:+ String c EmptyString)
  end.

Definition split_path (key : string) : list string := split_dots key "".

(** The value a record holds at a path; [undefined] where the path
    leaves the record. *)
Fixpoint getPath (v : value) (path : list string) : value :=
  match path with
  | [] => v
  | k :: rest =>
      match v with
      | VObj fs =>
          match lookup_field k fs with
          | Some x => getPath x rest
          | None => VUndef
          end
      | _ => VUndef
      end
  end.

(** The record with the value at a path replaced; objects are created
    along the path where there are none. *)
Fixpoint setPath (v : value) (path : list string) (x : value) : value :=
  match path with
  | [] => x
  | k :: rest =>
      let fs := match v with VObj fs => fs | _ => [] end in
      VObj (set_field k (setPath (default VUndef (lookup_field k fs)) rest x) fs)
  end.

(** Two paths meet when one leads through the other. *)
Fixpoint leads_through (p q : list string) : bool :=
  match p, q with
  | [], _ => true
  | a :: p', b :: q' => String.eqb a b && leads_through p' q'
  | _ :: _, [] => false
  end.

Definition meets (p q : list string) : bool :=
  leads_through p q || leads_through q p.

(** A path that no key of the update data meets. *)
Definition untouched (updateData : obj) (q : list string) : bool :=
  forallb (λ kv, negb (meets (split_path kv.1) q)) updateData.

(** A value that is written as a whole, not through keys of its own. *)
Definition is_leaf (v : value) : bool :=
  match v with VObj _ => false | _ => true end.

(** Modelled from the spec: merging update data into a record is the
    host's work (its [update] call and its [mergeObject] helper); the
    specification asks of it that patch values win on collision.
    [merged r u r'] says that [r'] is a merge of [u] into [r]: [r'] holds
    every value of [u] at its path, and agrees with [r] on every path
    that [u] does not meet. *)
Record merged (r : value) (u : obj) (r' : value) : Prop := {
  patch_wins : ∀ k v,
    lookup_field k u = Some v → is_leaf v = true → getPath r' (split_path k) = v;
  rest_kept : ∀ q, untouched u q = true → getPath r' q = getPath r q;
}.

(** Modelled from the spec: one such merge, writing the keys of the
    update data in their order, each at its path. *)
Definition mergePatch (r : value) (u : obj) : value :=
  foldl (λ acc kv, setPath acc (split_path kv.1) kv.2) r u.

(* ================================================================= *)
(** ** Records used as examples *)

Definition power_bare : value :=
  VObj [("type", VStr "power"); ("data", VObj [])].

Definition power_with_mods : value :=
  VObj [("type", VStr "power"); ("data", VObj [("itemMods", VObj [])])].

Definition weapon_bare : value :=
  VObj [("type", VStr "weapon"); ("data", VObj [])].

Definition weapon_with_mods : value :=
  VObj [("type", VStr "weapon"); ("data", VObj [("itemMods", VObj [])])].

Definition focus_item : value :=
  VObj [("type", VStr "focus"); ("data", VObj [("itemMods", VObj [])])].

Definition char_bare : value :=
  VObj [("type", VStr "char"); ("data", VObj [])].

Definition vehicle_bare : value :=
  VObj [("type", VStr "vehicle"); ("data", VObj [])].

(** A host whose merge writes the keys in order, that resolves no token
    actor and rejects no call. *)
Definition merge_in_order (r : value) (u : obj) : result value := Ok (mergePatch r u).
Definition no_token_actor (t : value) : option value := None.
Definition model_helpers : Helpers := Build_Helpers merge_in_order no_token_actor.
Definition accepts_all : Server := Build_Server (λ _ _, None).

(* ================================================================= *)
(** ** Vocabulary of the specification *)

(** The subtypes [_addItemModSpeed] passes over. *)
Definition speed_exempt (ty : value) : bool :=
  is_str ty "focus" || is_str ty "honorifics" || is_str ty "relationship"
  || is_str ty "membership" || is_str ty "stunts".

(** The keys of the speed-modifier default. *)
Definition speed_keys : list string :=
  ["data.itemMods.speed"; "data.itemMods.speed.isActive"; "data.itemMods.speed.value"].

(** The keys written for powers only: the fatigue bundle, the fix of
    [damageResisted.dmgAbl], and [itemForceAbl]. *)
Definition power_only_keys : list string :=
  ["data.causeHealing"; "data.ablFatigue"; "data.hasTest"; "data.testAbl";
   "data.testFocus"; "data.damageResisted"; "data.damageResisted.nrDice";
   "data.damageResisted.diceType"; "data.damageResisted.extraValue";
   "data.damageResisted.dmgAbl"; "data.itemForceAbl"].

(** The record that update data describes: its keys written, in order,
    into an empty record; and the value it describes at a key. *)
Definition expand (u : obj) : value := mergePatch (VObj []) u.

Definition patch_at (u : obj) (key : string) : value :=
  getPath (expand u) (split_path key).

(** What the specification's first example expects of a power's patch:
    the speed-modifier default, the fatigue bundle and [itemForceAbl]. *)
Definition power_defaults (u : obj) : Prop :=
  patch_at u "data.itemMods.speed" = VObj [("isActive", VBool false); ("value", VNum 0)]
  ∧ patch_at u "data.causeHealing" = VBool false
  ∧ patch_at u "data.ablFatigue" = VStr "will"
  ∧ patch_at u "data.hasTest" = VBool false
  ∧ patch_at u "data.testAbl" = VStr "will"
  ∧ patch_at u "data.testFocus" = VStr ""
  ∧ patch_at u "data.damageResisted"
    = VObj [("nrDice", VNum 1); ("diceType", VNum 6); ("extraValue", VNum 0);
            ("dmgAbl", VStr "will")]
  ∧ patch_at u "data.itemForceAbl" = VStr "will".

(** A token of a scene. *)
Definition token_field (fs : obj) (k : string) : value :=
  default VUndef (lookup_field k fs).

(** The token's override payload holds no [data]: [actorData] is there
    (neither absent nor null) and its [data] is absent or falsy. *)
Definition payload_without_data (fs : obj) : Prop :=
  ∃ data, getProp (token_field fs "actorData") "data" = Ok data ∧ truthy data = false.

(** The tokens [migrateSceneData] clears. *)
Definition to_clear (fs : obj) : Prop :=
  truthy (token_field fs "actorId") = false
  ∨ truthy (token_field fs "actorLink") = true
  ∨ payload_without_data fs.

(** The token with its override payload emptied. *)
Definition cleared (fs : obj) : value := VObj (set_field "actorData" (VObj []) fs).

Definition scene_of (tokens : list value) : value := VObj [("tokens", VArr tokens)].

(** An unlinked token that names an actor and has no [actorData]. *)
Definition token_without_payload : value :=
  VObj [("actorId", VStr "a1"); ("actorLink", VBool false)].

(** A linked token whose payload has content. *)
Definition token_linked : value :=
  VObj [("actorId", VStr "a1"); ("actorLink", VBool true);
        ("actorData", VObj [("data", VObj [("health", VNum 7)])])].

(** The calls that write to the host's store. *)
Definition is_write (c : event) : bool :=
  match c with
  | EntityUpdate _ _ _ | PackUpdateEntity _ _ _ => true
  | _ => false
  end.




(** A host that rejects every write with a string, which is no [Error]. *)
Definition rejects_writes_with_string : Server :=
  Build_Server (λ _ c, if is_write c then Some (Exn NonObject "write refused") else None).

Definition stale_power : entity := Entity "Fireball" (VStr "id1") power_with_mods.
Definition exempt_focus : entity := Entity "Lore" (VStr "id2") focus_item.
Definition broken_power : entity := Entity "Hex" (VStr "id3") power_bare.

Definition item_pack : pack :=
  Pack "world.powers" "world" "Item" [stale_power; exempt_focus; broken_power].

Definition all_locked : world := World (λ _, true) [] [].

(** [grows P m]: running [m] only adds calls to the trace, and each call
    added satisfies [P]. *)
Definition grows {A} (P : event → Prop) (m : M world A) : Prop :=
  ∀ w, ∃ evs, trace (m w).2 = trace w ++ evs ∧ Forall P evs.

(** A write is justified when it carries the patch computed for its
    document, and that patch has keys: for a document of the world the
    patch itself, for an entry of a pack the patch tagged with the
    entry's [_id]. *)
Definition justified {helpers : Helpers} (c : event) : Prop :=
  match c with
  | EntityUpdate k a u =>
      migrateData k (ent_data a) = Ok u ∧ isObjectEmpty u = false
  | PackUpdateEntity p e u =>
      ∃ u0, migrateEntry (pack_entity p) (ent_data e) = Ok u0
            ∧ isObjectEmpty u0 = false
            ∧ u = set_field "_id" (ent_id e) u0
  | _ => True
  end.

Definition example_game : game :=
  Game "0.6.0" [Entity "Rover" (VStr "id0") vehicle_bare] [stale_power; exempt_focus] []
       [item_pack].

(** An item that has every field the item patch function looks for. *)
Definition settled (item : value) : Prop :=
  let at_ path := getPath item path in
  truthy (at_ ["data"; "itemMods"; "speed"]) = true
  ∧ (is_str (at_ ["type"]) "power" = true →
     truthy (at_ ["data"; "ablFatigue"]) = true
     ∧ truthy (at_ ["data"; "itemForceAbl"]) = true
     ∧ (truthy (at_ ["data"; "damageResisted"]) = false
        ∨ truthy (at_ ["data"; "damageResisted"; "dmgAbl"]) = true)).

(** The actors on which [_addActorConditions] returns: those that are
    not chars, and the chars whose conditions are an object (or an
    array) on which [hasOwnProperty] can be called.  It returns the
    update data as it got them. *)
Definition conditions_pass (actor ty : value) : Prop :=
  is_str ty "char" = false
  ∨ ∃ data cur owned,
      getProp actor "data" = Ok data
      ∧ getProp data "conditions" = Ok cur
      ∧ truthy cur = true
      ∧ typeof_object cur = true
      ∧ mapM (hasOwnProperty cur) conditions = Ok owned.

(** The embedded items of an actor. *)
Definition owned_items (actor : value) : list value :=
  match getPath actor ["items"] with VArr xs => xs | _ => [] end.

(** The patch of an actor that passes the two helpers: what the owned
    items ask for. *)
Definition items_patch {helpers : Helpers} (actor : value) : result obj :=
  items ← getProp actor "items";
  if negb (truthy items) then Ok []
  else
    migrated ← array_map "actor.items" items migrateOwnedItem;
    if existsb fst migrated then Ok [("items", VArr (snd <$> migrated))] else Ok [].

(** The specification's idempotence, for one record: the patch function
    returns a patch, and returns the empty patch on every merge of that
    patch into the record. *)
Definition idempotent_on (patch : value → result obj) (r : value) : Prop :=
  ∃ p, patch r = Ok p ∧ ∀ r', merged r p r' → patch r' = Ok [].

(** A char whose conditions are an object, owning a stale power and a
    focus. *)
Definition hero : value :=
  VObj [("type", VStr "char");
        ("data", VObj [("conditions", VObj [("prone", VBool true)])]);
        ("items", VArr [power_with_mods; focus_item])].

(** A power that has [damageResisted] without [dmgAbl], and no
    [ablFatigue]. *)
Definition power_half_filled : value :=
  VObj [("type", VStr "power");
        ("data", VObj [("itemMods", VObj [("speed", VObj [])]);
                       ("damageResisted", VObj [("nrDice", VNum 2)]);
                       ("itemForceAbl", VStr "will")])].

(** Every key the item patch function can write, with the value it
    writes there, in the order of the source. *)
Definition item_defaults : obj :=
  [("data.itemMods.speed", VObj []);
   ("data.itemMods.speed.isActive", VBool false);
   ("data.itemMods.speed.value", VNum 0);
   ("data.causeHealing", VBool false);
   ("data.ablFatigue", VStr "will");
   ("data.hasTest", VBool false);
   ("data.testAbl", VStr "will");
   ("data.testFocus", VStr "");
   ("data.damageResisted", VObj []);
   ("data.damageResisted.nrDice", VNum 1);
   ("data.damageResisted.diceType", VNum 6);
   ("data.damageResisted.extraValue", VNum 0);
   ("data.damageResisted.dmgAbl", VStr "will");
   ("data.itemForceAbl", VStr "will")].

(** A power that holds falsy values where the patch function looks, and
    dice of its own. *)
Definition power_with_blanks : value :=
  VObj [("type", VStr "power");
        ("data", VObj [("itemMods", VObj [("speed", VNum 0)]);
                       ("ablFatigue", VStr "");
                       ("damageResisted", VObj [("nrDice", VNum 3); ("dmgAbl", VNull)]);
                       ("itemForceAbl", VBool false)])].

(** How an owned item [x] stands to the item [y] that takes its place in
    the replacement list: [y] is [x] itself when [x] needs no patch, and
    the host's merge of the patch into [x] otherwise. *)
Definition kept_or_merged {helpers : Helpers} (x y : value) : Prop :=
  (migrateItemData x = Ok [] ∧ y = x)
  ∨ (∃ q, migrateItemData x = Ok q ∧ q ≠ [] ∧ mergeObject x q = Ok y).

(** An owned item that needs a patch. *)
Definition stale (x : value) : Prop :=
  ∃ q, migrateItemData x = Ok q ∧ q ≠ [].

(** A char whose conditions are a string, owning a stale power. *)
Definition char_with_text_conditions : value :=
  VObj [("type", VStr "char");
        ("data", VObj [("conditions", VStr "none"); ("health", VNum 12)]);
        ("items", VArr [power_with_mods])].

(** An actor of another subtype, owning a focus, a stale power and an
    item without [itemMods]. *)
Definition npc_with_broken_item : value :=
  VObj [("type", VStr "npc"); ("data", VObj []);
        ("items", VArr [focus_item; power_with_mods; weapon_bare])].

(** An actor of another subtype, owning a focus and a stale power. *)
Definition npc : value :=
  VObj [("type", VStr "npc"); ("data", VObj []);
        ("items", VArr [focus_item; power_with_mods])].

(** An unlinked token with a payload, naming an actor the host does not
    resolve. *)
Definition token_orphan : value :=
  VObj [("actorId", VStr "gone"); ("actorLink", VBool false);
        ("actorData", VObj [("data", VObj [("health", VNum 3)])]);
        ("x", VNum 100); ("y", VNum 250)].

(** The documents of one of the world's three collections. *)
Definition docs (k : doctype) (g : game) : list entity :=
  match k with Actor => actors g | Item => items g | Scene => scenes g end.

(** A call that is made on a document of the game, or on a pack of the
    game that the world owns and whose entity type is supported, or on an
    entry of such a pack. *)
Definition within (g : game) (c : event) : Prop :=
  let owned p := p ∈ packs g ∧ package p = "world" ∧ supported (pack_entity p) = true in
  match c with
  | EntityUpdate k a _ => a ∈ docs k g
  | PackConfigure p _ | PackMigrate p | PackGetContent p => owned p
  | PackUpdateEntity p e _ => owned p ∧ e ∈ content p
  | _ => True
  end.








(* ================================================================= *)
(** * Properties *)

(** ** Objects *)

Lemma lookup_set_field_eq k v fs : lookup_field k (set_field k v fs) = Some v.
Proof.
  induction fs as [|[k' v'] fs IH]; simpl.
  - by rewrite String.eqb_refl.
  - destruct (String.eqb k k') eqn:E; simpl; rewrite E; [done | apply IH].
Qed.

Lemma lookup_set_field_ne k k' v fs :
  k ≠ k' → lookup_field k' (set_field k v fs) = lookup_field k' fs.
Proof.
  intros Hne. induction fs as [|[k0 v0] fs IH]; simpl.
  - destruct (String.eqb k' k) eqn:E; [|done].
    apply String.eqb_eq in E. congruence.
  - destruct (String.eqb k k0) eqn:E; simpl.
    + apply String.eqb_eq in E. subst k0.
      destruct (String.eqb k' k) eqn:E'; [|done].
      apply String.eqb_eq in E'. congruence.
    + by rewrite IH.
Qed.

Lemma lookup_delete_field_eq k fs : lookup_field k (delete_field k fs) = None.
Proof.
  induction fs as [|[k' v'] fs IH]; simpl; [done|].
  destruct (String.eqb k k') eqn:E; simpl; [done | by rewrite E].
Qed.

(** ** Reads *)

Lemma getProp_obj fs k : getProp (VObj fs) k = Ok (default VUndef (lookup_field k fs)).
Proof. done. Qed.

Lemma getProp_Ok_getPath v k x : getProp v k = Ok x → x = getPath v [k].
Proof.
  destruct v; simpl; try congruence.
  intros [= <-]. by destruct (lookup_field k fields).
Qed.

Lemma getPath_undef q : getPath VUndef q = VUndef.
Proof. by destruct q. Qed.

Lemma getPath_app v p q : getPath v (p ++ q) = getPath (getPath v p) q.
Proof.
  revert v. induction p as [|k p IH]; intros v; simpl; [done|].
  destruct v; simpl; try by rewrite getPath_undef.
  destruct (lookup_field k fields); [apply IH | by rewrite getPath_undef].
Qed.

Lemma getPath_cons v k q : getPath v (k :: q) = getPath (getPath v [k]) q.
Proof. apply (getPath_app v [k] q). Qed.

Lemma truthy_not_undef v : truthy v = true → v ≠ VUndef.
Proof. by destruct v. Qed.

(** ** The result monad *)

Lemma bind_Ok {A B} (m : result A) (f : A → result B) b :
  m ≫= f = Ok b → ∃ a, m = Ok a ∧ f a = Ok b.
Proof. destruct m as [a|e]; simpl; [eauto | done]. Qed.

Lemma mapM_Ok_Forall2 {A B} (f : A → result B) xs ys :
  mapM f xs = Ok ys ↔ Forall2 (λ x y, f x = Ok y) xs ys.
Proof.
  revert ys. induction xs as [|x xs IH]; intros ys; simpl.
  - split; [intros [= <-]; constructor | by inversion 1].
  - split.
    + intros H. apply bind_Ok in H as (y & Hy & H).
      apply bind_Ok in H as (ys' & Hys & [= <-]).
      constructor; [done | by apply IH].
    + inversion 1 as [|? y ? ys' Hy Hys]; subst.
      apply IH in Hys. unfold mbind at 1. rewrite Hy. simpl.
      unfold mbind at 1. by rewrite Hys.
Qed.

(** ** Item patch function *)

Lemma is_str_eq v s : is_str v s = true ↔ v = VStr s.
Proof.
  destruct v; simpl; try (split; congruence).
  rewrite String.eqb_eq. split; congruence.
Qed.

Lemma speed_exempt_not_power ty : speed_exempt ty = true → is_str ty "power" = false.
Proof.
  unfold speed_exempt. rewrite !orb_true_iff, !is_str_eq.
  intros H; destruct_or!; by subst.
Qed.

Lemma addItemModSpeed_exempt item ty u :
  getProp item "type" = Ok ty → speed_exempt ty = true →
  _addItemModSpeed item u = Ok u.
Proof.
  intros Hty Hex. unfold _addItemModSpeed. rewrite Hty. simpl.
  unfold speed_exempt in Hex. by rewrite Hex.
Qed.

Lemma power_helpers_skip item ty u :
  getProp item "type" = Ok ty → is_str ty "power" = false →
  _addItemValidResistedDmgAbl item u = Ok u
  ∧ _addExtraPowerData item u = Ok u
  ∧ _addItemForceAbl item u = Ok u.
Proof.
  intros Hty Hp.
  unfold _addItemValidResistedDmgAbl, _addExtraPowerData, _addItemForceAbl.
  rewrite Hty. simpl. by rewrite Hp.
Qed.

Lemma migrateItemData_not_power item ty :
  getProp item "type" = Ok ty → is_str ty "power" = false →
  migrateItemData item = _addItemModSpeed item [].
Proof.
  intros Hty Hp. unfold migrateItemData.
  destruct (_addItemModSpeed item []) as [u|e]; simpl; [|done].
  destruct (power_helpers_skip item ty u Hty Hp) as (H1 & H2 & H3).
  rewrite H1; simpl. rewrite H2; simpl. by rewrite H3.
Qed.

Lemma addItemModSpeed_cases item u' :
  _addItemModSpeed item [] = Ok u' →
  u' = [] ∨ u' = [("data.itemMods.speed", VObj []);
                  ("data.itemMods.speed.isActive", VBool false);
                  ("data.itemMods.speed.value", VNum 0)].
Proof.
  unfold _addItemModSpeed. intros H.
  repeat (apply bind_Ok in H as (? & ? & H)).
  repeat case_match; simplify_eq; auto.
  repeat (apply bind_Ok in H as (? & ? & H)).
  repeat case_match; simplify_eq; auto.
Qed.

(** C6: an item of subtype focus, honorifics, relationship, membership
    or stunts gets the empty patch, so never the speed-modifier default;
    an item of any subtype but power never gets a power-only key. *)
Theorem subtype_gating item ty :
  getProp item "type" = Ok ty →
  (speed_exempt ty = true →
     migrateItemData item = Ok []
     ∧ ∀ p k, migrateItemData item = Ok p → k ∈ speed_keys → lookup_field k p = None)
  ∧ (is_str ty "power" = false →
     ∀ p k, migrateItemData item = Ok p → k ∈ power_only_keys → lookup_field k p = None).
Proof.
  intros Hty. split.
  - intros Hex.
    assert (migrateItemData item = Ok []) as Hrun.
    { rewrite (migrateItemData_not_power item ty Hty (speed_exempt_not_power _ Hex)).
      by apply addItemModSpeed_exempt with ty. }
    split; [done|]. intros p k Hp _. rewrite Hrun in Hp. by injection Hp as <-.
  - intros Hnp p k Hp Hk.
    rewrite (migrateItemData_not_power item ty Hty Hnp) in Hp.
    apply addItemModSpeed_cases in Hp as [-> | ->]; [done|].
    unfold power_only_keys in Hk.
    repeat (apply elem_of_cons in Hk as [-> | Hk]; [done|]).
    by apply elem_of_nil in Hk.
Qed.

(** The gating on a focus, which is passed over, and on a weapon, which is
    no power. *)
Lemma subtype_gating_witness :
  (migrateItemData focus_item = Ok []
   ∧ ∀ p k, migrateItemData focus_item = Ok p → k ∈ speed_keys → lookup_field k p = None)
  ∧ (∀ p k, migrateItemData weapon_with_mods = Ok p → k ∈ power_only_keys →
            lookup_field k p = None).
Proof.
  split.
  - apply (subtype_gating focus_item (VStr "focus")); reflexivity.
  - apply (subtype_gating weapon_with_mods (VStr "weapon")); reflexivity.
Defined.

(** C10: for an item whose subtype is not passed over and whose data
    holds no [itemMods] (it is absent or null, or the data themselves
    are), the item patch function does not return: the read of [speed]
    on the missing [itemMods] raises a TypeError. *)
Theorem missing_itemMods_raises item ty data :
  getProp item "type" = Ok ty → speed_exempt ty = false →
  getProp item "data" = Ok data →
  (∀ mods, getProp data "itemMods" = Ok mods → mods = VUndef ∨ mods = VNull) →
  (∃ err, migrateItemData item = Throw err ∧ kind err = TypeError)
  ∧ (∀ p, migrateItemData item ≠ Ok p).
Proof.
  intros Hty Hex Hdata Hnone.
  assert (∃ err, migrateItemData item = Throw err ∧ kind err = TypeError)
    as (err & Hrun & Hkind); [|rewrite Hrun; eauto].
  unfold migrateItemData, _addItemModSpeed. rewrite Hty. simpl.
  unfold speed_exempt in Hex. rewrite Hex, Hdata. simpl.
  destruct (getProp data "itemMods") as [mods|err] eqn:Hmods; simpl.
  - destruct (Hnone mods eq_refl) as [-> | ->]; simpl; eauto.
  - exists err. split; [done|].
    destruct data; simpl in Hmods; try discriminate Hmods; by injection Hmods as <-.
Qed.

(** The weapon with empty data. *)
Lemma missing_itemMods_raises_witness :
  (∃ err, migrateItemData weapon_bare = Throw err ∧ kind err = TypeError)
  ∧ (∀ p, migrateItemData weapon_bare ≠ Ok p).
Proof.
  apply (missing_itemMods_raises weapon_bare (VStr "weapon") (VObj []));
    [reflexivity | reflexivity | reflexivity |].
  intros mods [= <-]. by left.
Defined.

(** ** Actor patch function *)

Section Actor.

Context {helpers : Helpers}.

(** X2: for every char actor whose conditions are to be rebuilt (they are
    falsy, or truthy and no object), the actor patch function raises the
    ReferenceError on [udpateData] and returns no patch. *)
Theorem rebuild_conditions_raises fs dfs :
  lookup_field "type" fs = Some (VStr "char") →
  lookup_field "data" fs = Some (VObj dfs) →
  truthy (default VUndef (lookup_field "conditions" dfs)) = false
  ∨ typeof_object (default VUndef (lookup_field "conditions" dfs)) = false →
  migrateActorData (VObj fs) = unbound "udpateData".
Proof.
  intros Hty Hdata Hcur.
  unfold migrateActorData, migrateActorData_st, _addActorConditions.
  cbv [mbind M_bind lift get put mret M_ret].
  simpl. rewrite Hty. simpl. rewrite Hdata. simpl.
  set (cur := default VUndef (lookup_field "conditions" dfs)) in *.
  destruct (truthy cur) eqn:Htr.
  - destruct Hcur as [|Hobj]; [congruence|]. rewrite Hobj. simpl. 
    rewrite lookup_set_field_eq. simpl.
    rewrite lookup_delete_field_eq. simpl. done.
  - simpl. rewrite Hdata. simpl. fold cur. rewrite Htr. simpl. done.
Qed.

(** C1: on the char actor whose data holds no conditions the actor
    patch function returns no patch; the loop that should add the
    flags raises a ReferenceError on its first round. *)
Theorem char_without_conditions_raises :
  migrateActorData char_bare
  = Throw (Exn ReferenceError "udpateData is not defined").
Proof. reflexivity. Qed.

(** X1: on every actor of subtype vehicle the actor patch function
    raises, and returns no patch: a ReferenceError on the bare
    identifier, or a TypeError when the actor has no data. *)
Theorem vehicle_raises actor :
  getProp actor "type" = Ok (VStr "vehicle") →
  ∃ err, migrateActorData actor = Throw err
         ∧ (kind err = ReferenceError ∨ kind err = TypeError).
Proof.
  intros Hty.
  unfold migrateActorData, migrateActorData_st, _addActorConditions.
  cbv [mbind M_bind lift get put mret M_ret].
  simpl. rewrite Hty. simpl.
  unfold _addVehicleCustomDmg. rewrite Hty. simpl.
  destruct actor as [| | b | n | s | xs | fs]; try discriminate Hty. simpl.
  destruct (default VUndef (lookup_field "data" fs)) as [| | b | n | s | xs | dfs];
    simpl; eauto.
Qed.

(** C2: on the vehicle actor with empty data the actor patch function
    returns no patch; the first test raises a ReferenceError. *)
Theorem vehicle_without_custom_dmg_raises :
  migrateActorData vehicle_bare
  = Throw (Exn ReferenceError "customSideswipeDmg is not defined").
Proof. reflexivity. Qed.

End Actor.

(** A char whose conditions are a string. *)
Lemma rebuild_conditions_raises_witness :
  migrateActorData (helpers := model_helpers)
    (VObj [("type", VStr "char"); ("data", VObj [("conditions", VStr "none")])])
  = unbound "udpateData".
Proof.
  apply (rebuild_conditions_raises (helpers := model_helpers)
           _ [("conditions", VStr "none")]);
    [reflexivity | reflexivity | right; reflexivity].
Defined.

(** The vehicle with empty data. *)
Lemma vehicle_raises_witness :
  ∃ err, migrateActorData (helpers := model_helpers) vehicle_bare = Throw err
         ∧ (kind err = ReferenceError ∨ kind err = TypeError).
Proof. apply (vehicle_raises (helpers := model_helpers) vehicle_bare). reflexivity. Defined.

(** X3: when the conditions of a char are an object, [_addActorConditions]
    adds nothing and changes nothing, whether the object holds every
    condition or not: an incomplete object is not completed. *)
Theorem conditions_object_left_alone actor data cur owned u :
  getProp actor "type" = Ok (VStr "char") →
  getProp actor "data" = Ok data →
  getProp data "conditions" = Ok cur →
  truthy cur = true → typeof_object cur = true →
  mapM (hasOwnProperty cur) conditions = Ok owned →
  _addActorConditions u actor = (Ok u, actor).
Proof.
  intros Hty Hdata Hcur Htr Hobj Hown. unfold _addActorConditions.
  cbv [mbind M_bind lift get put mret M_ret]. rewrite Hty. cbn [is_str negb].
  rewrite String.eqb_refl. cbn [negb].
  rewrite Hdata, Hcur, Htr, Hobj, Hown.
  destruct (forallb id owned); [done|].
  by rewrite Hdata, Hcur, Htr.
Qed.

(** The char whose conditions hold one flag only. *)
Lemma conditions_object_left_alone_witness :
  _addActorConditions [] hero = (Ok [], hero).
Proof.
  eapply (conditions_object_left_alone hero _ (VObj [("prone", VBool true)]));
    reflexivity.
Defined.

(** The specification's first example, read on the power with empty
    data: no patch is returned. *)
Lemma power_bare_no_patch :
  migrateItemData power_bare = Throw (cannot_read "speed" VUndef)
  ∧ ¬ ∃ p, migrateItemData power_bare = Ok p ∧ power_defaults p.
Proof. split; [reflexivity|]. intros (p & H & _). vm_compute in H. discriminate. Qed.

(** C3, amended: for the power whose data holds an empty [itemMods], the
    item patch function returns a patch with the speed-modifier default,
    the whole fatigue bundle and [itemForceAbl]. *)
Theorem power_with_mods_patch :
  ∃ p, migrateItemData power_with_mods = Ok p
       ∧ power_defaults p
       ∧ lookup_field "data.itemMods.speed" p = Some (VObj [])
       ∧ lookup_field "data.itemMods.speed.isActive" p = Some (VBool false)
       ∧ lookup_field "data.itemMods.speed.value" p = Some (VNum 0)
       ∧ lookup_field "data.damageResisted.dmgAbl" p = Some (VStr "will")
       ∧ lookup_field "data.itemForceAbl" p = Some (VStr "will").
Proof.
  eexists. split; [reflexivity|]. unfold power_defaults. vm_compute. tauto.
Qed.

(** ** JSON data *)

(** Induction on values, through the arrays and objects they hold. *)
Lemma value_nested_ind (P : value → Prop) :
  P VUndef → P VNull → (∀ b, P (VBool b)) → (∀ n, P (VNum n)) → (∀ s, P (VStr s)) →
  (∀ xs, Forall P xs → P (VArr xs)) →
  (∀ fs, Forall (λ kv : string * value, P kv.2) fs → P (VObj fs)) →
  ∀ v, P v.
Proof.
  intros Hundef Hnull Hbool Hnum Hstr Harr Hobj.
  fix IH 1. intros [| | b | n | s | xs | fs].
  - exact Hundef.
  - exact Hnull.
  - apply Hbool.
  - apply Hnum.
  - apply Hstr.
  - apply Harr. revert xs. fix IHxs 1. intros [|x xs].
    + constructor.
    + constructor; [apply IH | apply IHxs].
  - apply Hobj. revert fs. fix IHfs 1. intros [|[k x] fs].
    + constructor.
    + constructor; [apply IH | apply IHfs].
Qed.

(** The JSON round trip gives back JSON data as they were. *)
Lemma json_copy_id v : is_json v = true → json_copy v = v.
Proof.
  induction v as [| | b | n | s | xs IH | fs IH] using value_nested_ind; try done.
  - cbn [is_json json_copy]. intros Hjson. f_equal.
    induction IH as [|x xs Hx _ IHxs]; [done|].
    cbn [forallb] in Hjson. apply andb_true_iff in Hjson as [Hjx Hjxs].
    cbn [map]. rewrite IHxs by done. f_equal.
    rewrite <- (Hx Hjx) at 2. by destruct x.
  - cbn [is_json json_copy]. intros Hjson. f_equal.
    induction IH as [|[k x] fs Hx _ IHfs]; [done|].
    cbn [forallb] in Hjson. apply andb_true_iff in Hjson as [Hjx Hjfs].
    cbn [omap list_omap]. cbn [fst snd] in *. rewrite (Hx Hjx).
    destruct x; try done; cbn; by rewrite IHfs.
Qed.

Lemma is_json_field fs k v :
  is_json (VObj fs) = true → lookup_field k fs = Some v → is_json v = true.
Proof.
  cbn [is_json]. induction fs as [|[k' v'] fs IH]; [done|].
  cbn [forallb lookup_field]. intros [Hv Hfs]%andb_true_iff.
  destruct (String.eqb k k'); [by intros [= <-] | by apply IH].
Qed.

Lemma duplicate_json v : is_json v = true → duplicate v = Ok v.
Proof.
  intros Hjson. unfold duplicate. rewrite (json_copy_id v Hjson). by destruct v.
Qed.

(** ** Scene patch function *)

Section Scene.

Context {helpers : Helpers}.

Lemma migrateToken_clears fs :
  to_clear fs → migrateToken (VObj fs) = Ok (cleared fs).
Proof.
  unfold to_clear, payload_without_data, token_field, migrateToken.
  rewrite !getProp_obj. simpl.
  destruct (truthy (default VUndef (lookup_field "actorId" fs))); simpl;
    [|done].
  destruct (truthy (default VUndef (lookup_field "actorLink" fs))); simpl;
    [done|].
  intros [|[|(data & -> & Hd)]]; [done..|]. simpl. by rewrite Hd.
Qed.

Lemma migrateSceneData_tokens scene ts :
  is_json scene = true →
  getProp scene "tokens" = Ok (VArr ts) →
  migrateSceneData scene
  = (out ← mapM migrateToken ts; Ok [("tokens", VArr out)]).
Proof.
  intros Hjson Hts. unfold migrateSceneData. rewrite Hts.
  assert (is_json (VArr ts) = true) as Hjts.
  { destruct scene as [| | | | | |fs]; try done. simpl in Hts.
    destruct (lookup_field "tokens" fs) as [v|] eqn:Hv; [|done].
    injection Hts as ->. by apply (is_json_field fs "tokens"). }
  cbn [mbind result_bind]. by rewrite (duplicate_json _ Hjts).
Qed.

(** C7, amended: in a scene of JSON data, a token with no actorId, or
    with a true actorLink, or whose override payload is there but holds
    no data, is cleared by the callback of the scene patch function.  The function returns a
    token list exactly when the callback returns on every token of the
    scene; that list then holds the cleared token in its place.  When
    every token of the scene is one to clear, it returns them all
    cleared. *)
Theorem scene_token_clearing scene ts i fs :
  is_json scene = true →
  getProp scene "tokens" = Ok (VArr ts) →
  ts !! i = Some (VObj fs) →
  to_clear fs →
  migrateToken (VObj fs) = Ok (cleared fs)
  ∧ (∀ p, migrateSceneData scene = Ok p ↔
          ∃ out, mapM migrateToken ts = Ok out
                 ∧ p = [("tokens", VArr out)])
  ∧ (∀ out, migrateSceneData scene = Ok [("tokens", VArr out)] →
            out !! i = Some (cleared fs))
  ∧ (Forall (λ t, ∃ fs', t = VObj fs' ∧ to_clear fs') ts →
     ∃ out, migrateSceneData scene = Ok [("tokens", VArr out)]).
Proof.
  intros Hjson Hts Hi Hclear.
  pose proof (migrateToken_clears fs Hclear) as Htok.
  rewrite (migrateSceneData_tokens scene ts Hjson Hts).
  split; [done|]. split; [|split].
  - intros p. split.
    + intros H. apply bind_Ok in H as (out & Hout & [= <-]). eauto.
    + intros (out & -> & ->). done.
  - intros out H. apply bind_Ok in H as (out' & Hout & [= <-]).
    apply mapM_Ok_Forall2 in Hout.
    destruct (Forall2_lookup_l _ _ _ _ _ Hout Hi) as (y & Hy & Hrun).
    rewrite Htok in Hrun. by injection Hrun as <-.
  - intros Hall.
    assert (∃ out, mapM migrateToken ts = Ok out) as [out Hout].
    { clear Hts Hi. induction Hall as [|t ts' (fs' & -> & Hc) _ [out IH]].
      - by exists [].
      - exists (cleared fs' :: out). apply mapM_Ok_Forall2.
        constructor; [by apply migrateToken_clears | by apply mapM_Ok_Forall2]. }
    exists out. by rewrite Hout.
Qed.

End Scene.

(** The scene whose one token is linked and has a payload with content. *)
Lemma scene_token_clearing_witness :
  migrateToken (helpers := model_helpers) token_linked
  = Ok (VObj [("actorId", VStr "a1"); ("actorLink", VBool true); ("actorData", VObj [])])
  ∧ migrateSceneData (helpers := model_helpers) (scene_of [token_linked])
    = Ok [("tokens", VArr [VObj [("actorId", VStr "a1"); ("actorLink", VBool true);
                                 ("actorData", VObj [])]])].
Proof.
  destruct (scene_token_clearing (helpers := model_helpers)
              (scene_of [token_linked]) [token_linked] 0 _
              eq_refl eq_refl eq_refl (or_intror (or_introl eq_refl)))
    as (Htok & _ & _ & Hall).
  split; [exact Htok|].
  destruct Hall as [out Hout].
  - repeat constructor. eexists. split; [reflexivity|]. right; left; reflexivity.
  - rewrite Hout. vm_compute in Hout. congruence.
Defined.

(** The scene whose one token names an actor, is not linked and has no
    [actorData]: the token is not cleared, the function raises. *)
Lemma token_without_payload_raises :
  migrateSceneData (helpers := model_helpers) (scene_of [token_without_payload])
  = Throw (cannot_read "data" VUndef)
  ∧ ¬ ∃ out, migrateSceneData (helpers := model_helpers) (scene_of [token_without_payload])
             = Ok [("tokens", VArr out)].
Proof. split; [reflexivity|]. intros [out H]. vm_compute in H. discriminate. Qed.

(** ** The world monad *)


Lemma for_of_returns {S A} (xs : list A) (body : A → M S unit) s :
  (∀ x s, (body x s).1 = Ok tt) → (for_of xs body s).1 = Ok tt.
Proof.
  intros Hbody. revert s. induction xs as [|x xs IH]; intros s; simpl; [done|].
  unfold mbind, M_bind. specialize (Hbody x s).
  destruct (body x s) as [[[]|e] s']; [apply IH | done].
Qed.

Lemma grows_ret {A} P (a : A) : grows P (mret a).
Proof. intros w. exists []. by rewrite app_nil_r. Qed.

Lemma grows_bind {A B} P (m : M world A) (f : A → M world B) :
  grows P m → (∀ a, grows P (f a)) → grows P (m ≫= f).
Proof.
  intros Hm Hf w. destruct (Hm w) as (evs & Htr & Hevs).
  unfold mbind, M_bind. destruct (m w) as [[a|e] w'] eqn:Hrun; simpl in *.
  - destruct (Hf a w') as (evs' & Htr' & Hevs').
    exists (evs ++ evs'). rewrite Htr', Htr, app_assoc.
    split; [done | by apply Forall_app].
  - by exists evs.
Qed.

Lemma grows_for_of {A} P (xs : list A) (body : A → M world unit) :
  (∀ x, grows P (body x)) → grows P (for_of xs body).
Proof.
  intros Hbody. induction xs as [|x xs IH]; simpl.
  - apply grows_ret.
  - apply grows_bind; [apply Hbody | by intros _].
Qed.

Lemma grows_get P : grows P (get (S := world)).
Proof. intros w. exists []. by rewrite app_nil_r. Qed.

Lemma grows_emit (P : event → Prop) c : P c → grows P (emit c).
Proof. intros Hc w. exists [c]. split; [done | by constructor]. Qed.

Lemma trace_effect c w : trace (effect c w) = trace w.
Proof. by destruct c. Qed.

Section Calls.

Context {server : Server}.

Lemma grows_await (P : event → Prop) c : P c → grows P (await c).
Proof.
  intros Hc w. exists [c]. unfold await.
  destruct (rejects (trace w) c); simpl; rewrite ?trace_effect;
    (split; [done | by constructor]).
Qed.

Lemma grows_detached (P : event → Prop) c : P c → grows P (detached c).
Proof.
  intros Hc w. exists [c]. unfold detached.
  destruct (rejects (trace w) c); simpl; rewrite ?trace_effect;
    (split; [done | by constructor]).
Qed.

End Calls.

(** ** Orchestrator and compendium walker *)

Lemma grows_lift {A} P (r : result A) : grows P (lift r).
Proof. intros w. exists []. by rewrite app_nil_r. Qed.


(** The handler on a value that is no object: it raises, and logs
    nothing. *)
Lemma caught_non_object prefix err w :
  kind err = NonObject →
  caught prefix err w
  = (Throw (Exn TypeError ("Cannot create property 'message' on " +:+ message err)), w).
Proof.
  intros Hobj. unfold caught, annotate, mbind, M_bind, lift. by rewrite Hobj.
Qed.

Lemma grows_caught (P : event → Prop) prefix err :
  (∀ e, P (ConsoleError e)) → grows P (caught prefix err).
Proof.
  intros HP. unfold caught.
  apply grows_bind; [apply grows_lift | intros e]. by apply grows_emit.
Qed.

Section Orchestrator.

Context {helpers : Helpers} {server : Server}.

(** What one round of a loop over the world's documents does. *)
Lemma migrateDocument_run k a w :
  migrateDocument k a w =
  match migrateData k (ent_data a) with
  | Throw err => caught (failure_prefix k +:+ ent_name a +:+ ": ") err w
  | Ok u =>
      if isObjectEmpty u then (Ok tt, w)
      else
        let w1 := record (ConsoleLog ("Migrating " +:+ doctype_name k +:+ " entity "
                                      +:+ ent_name a)) w in
        let w2 := record (EntityUpdate k a u) w1 in
        match rejects (trace w1) (EntityUpdate k a u) with
        | Some err => caught (failure_prefix k +:+ ent_name a +:+ ": ") err w2
        | None => (Ok tt, w2)
        end
  end.
Proof.
  unfold migrateDocument, try_catch. unfold mbind at 1, M_bind at 1, lift at 1.
  destruct (migrateData k (ent_data a)) as [u|err]; simpl; [|done].
  destruct (isObjectEmpty u); simpl; [done|].
  unfold mbind, M_bind, emit, await. simpl.
  by destruct (rejects _ _).
Qed.

(** What one round of the loop over a pack's entries does. *)
Lemma migratePackEntry_run p ent w :
  migratePackEntry p ent w =
  let prefix := "Failed age-system system migration for entity "
                +:+ ent_name ent +:+ " in pack " +:+ collection p +:+ ": " in
  match migrateEntry (pack_entity p) (ent_data ent) with
  | Throw err => caught prefix err w
  | Ok u =>
      if isObjectEmpty u then (Ok tt, w)
      else
        let call := PackUpdateEntity p ent (set_field "_id" (ent_id ent) u) in
        let w1 := record call w in
        match rejects (trace w) call with
        | Some err => caught prefix err w1
        | None =>
            (Ok tt,
             record (ConsoleLog ("Migrated " +:+ pack_entity p +:+ " entity " +:+ ent_name ent
                                 +:+ " in Compendium " +:+ collection p)) w1)
        end
  end.
Proof.
  unfold migratePackEntry, try_catch. unfold mbind at 1, M_bind at 1, lift at 1.
  destruct (migrateEntry (pack_entity p) (ent_data ent)) as [u|err]; simpl; [|done].
  destruct (isObjectEmpty u); simpl; [done|].
  unfold mbind, M_bind, emit, await. simpl.
  by destruct (rejects _ _).
Qed.

Lemma migrateDocument_justified k a : grows justified (migrateDocument k a).
Proof.
  intros w. rewrite migrateDocument_run.
  destruct (migrateData k (ent_data a)) as [u|err] eqn:Hu.
  - destruct (isObjectEmpty u) eqn:Hempty.
    + exists []. by rewrite app_nil_r.
    + cbv zeta. destruct (rejects _ _) as [err|].
      * destruct (grows_caught justified (failure_prefix k +:+ ent_name a +:+ ": ") err
                    (λ _, I)
                    (record (EntityUpdate k a u)
                       (record (ConsoleLog ("Migrating " +:+ doctype_name k +:+ " entity "
                                            +:+ ent_name a)) w)))
          as (evs & -> & Hevs).
        simpl. rewrite <- !app_assoc. eexists. split; [reflexivity|].
        repeat constructor; done.
      * simpl. rewrite <- !app_assoc. eexists. split; [reflexivity|].
        repeat constructor; done.
  - by apply grows_caught.
Qed.

Lemma migratePackEntry_justified p ent : grows justified (migratePackEntry p ent).
Proof.
  intros w. rewrite migratePackEntry_run. cbv zeta.
  destruct (migrateEntry (pack_entity p) (ent_data ent)) as [u|err] eqn:Hu.
  - destruct (isObjectEmpty u) eqn:Hempty.
    + exists []. by rewrite app_nil_r.
    + destruct (rejects _ _) as [err|].
      * match goal with |- context [caught ?pfx err ?s] =>
          destruct (grows_caught justified pfx err (λ _, I) s) as (evs & -> & Hevs) end.
        simpl. rewrite <- !app_assoc. eexists. split; [reflexivity|].
        repeat constructor; simpl; eauto.
      * simpl. rewrite <- !app_assoc. eexists. split; [reflexivity|].
        repeat constructor; simpl; eauto.
  - by apply grows_caught.
Qed.

Lemma migrateCompendium_justified p : grows justified (migrateCompendium p).
Proof.
  unfold migrateCompendium. destruct (negb _); [apply grows_ret|].
  apply grows_bind; [apply grows_get | intros w0].
  repeat (apply grows_bind; [by apply grows_await | intros _]).
  apply grows_bind.
  { apply grows_for_of. intros ent. apply migratePackEntry_justified. }
  intros _. apply grows_bind; [by apply grows_detached | intros _].
  by apply grows_emit.
Qed.

Lemma migrateWorld_justified g : grows justified (migrateWorld g).
Proof.
  unfold migrateWorld.
  apply grows_bind; [by apply grows_emit | intros _].
  do 3 (apply grows_bind;
        [apply grows_for_of; intros a; apply migrateDocument_justified | intros _]).
  apply grows_bind.
  { apply grows_for_of. intros p.
    repeat (destruct (negb _); [apply grows_ret|]).
    apply migrateCompendium_justified. }
  intros _. apply grows_bind; [by apply grows_detached | intros _].
  by apply grows_emit.
Qed.

(** C5: among the calls a migration run adds to the trace, every write
    carries the patch computed for its document, and that patch has
    keys; so a document whose patch has no keys is never written, in the
    world's collections or in a pack. *)
Theorem emptiness_gate g p w :
  ∃ evs walk,
    trace (migrateWorld g w).2 = trace w ++ evs
    ∧ trace (migrateCompendium p w).2 = trace w ++ walk
    ∧ Forall justified evs ∧ Forall justified walk
    ∧ (∀ k a, migrateData k (ent_data a) = Ok [] →
              ∀ u, EntityUpdate k a u ∉ evs)
    ∧ (∀ q ent, migrateEntry (pack_entity q) (ent_data ent) = Ok [] →
                ∀ u, (PackUpdateEntity q ent u ∉ evs) ∧ (PackUpdateEntity q ent u ∉ walk)).
Proof.
  destruct (migrateWorld_justified g w) as (evs & Hevs & Hj).
  destruct (migrateCompendium_justified p w) as (walk & Hwalk & Hjw).
  exists evs, walk. do 4 (split; [done|]).
  split; [intros k a Hempty u Hin | intros q ent Hempty u; split].
  -
    apply (proj1 (list.Forall_forall _ _) Hj) in Hin. simpl in Hin.
    destruct Hin as [Hu Hne]. rewrite Hempty in Hu. by injection Hu as <-.
  - intros Hin. apply (proj1 (list.Forall_forall _ _) Hj) in Hin. simpl in Hin.
    destruct Hin as (u0 & Hu & Hne & _). rewrite Hempty in Hu. by injection Hu as <-.
  - intros Hin. apply (proj1 (list.Forall_forall _ _) Hjw) in Hin. simpl in Hin.
    destruct Hin as (u0 & Hu & Hne & _). rewrite Hempty in Hu. by injection Hu as <-.
Qed.





End Orchestrator.

(** A run over a world and a walk over a pack that both hold a focus:
    its patch is empty, and no call writes it. *)
Lemma emptiness_gate_witness :
  ∃ evs walk,
    trace (migrateWorld (helpers := model_helpers) (server := accepts_all)
             example_game all_locked).2 = trace all_locked ++ evs
    ∧ trace (migrateCompendium (helpers := model_helpers) (server := accepts_all)
               item_pack all_locked).2 = trace all_locked ++ walk
    ∧ (∀ u, EntityUpdate Item exempt_focus u ∉ evs)
    ∧ (∀ u, PackUpdateEntity item_pack exempt_focus u ∉ walk).
Proof.
  destruct (emptiness_gate (helpers := model_helpers) (server := accepts_all)
              example_game item_pack all_locked)
    as (evs & walk & Hevs & Hwalk & _ & _ & Hdoc & Hentry).
  exists evs, walk. split; [exact Hevs|]. split; [exact Hwalk|]. split.
  - apply Hdoc. reflexivity.
  - intros u. apply (Hentry item_pack exempt_focus); reflexivity.
Defined.





(** ** Idempotence *)

Lemma merged_nil r r' : merged r [] r' → r' = r.
Proof. intros [_ Hkept]. apply (Hkept []). done. Qed.

(** A record that holds something below a path holds an object at that
    path. *)
Lemma getPath_parent v path k :
  getPath v (path ++ [k]) ≠ VUndef → ∃ fs, getPath v path = VObj fs.
Proof.
  rewrite getPath_app. destruct (getPath v path); simpl; try done. eauto.
Qed.

Lemma getProp_at v path k :
  getPath v (path ++ [k]) ≠ VUndef →
  getProp (getPath v path) k = Ok (getPath v (path ++ [k])).
Proof.
  intros H. destruct (getPath_parent _ _ _ H) as [fs Hfs].
  rewrite getPath_app, Hfs. simpl. by destruct (lookup_field k fs).
Qed.

Lemma getProp_obj_at v path fs k :
  getPath v path = VObj fs →
  getProp (getPath v path) k = Ok (getPath v (path ++ [k])).
Proof.
  intros Hfs. rewrite getPath_app, Hfs. simpl. by destruct (lookup_field k fs).
Qed.

#[local] Arguments getPath : simpl never.

Lemma settled_no_patch item : settled item → migrateItemData item = Ok [].
Proof.
  intros (Hspeed & Hpower).
  - apply truthy_not_undef in Hspeed as Hs.
    pose proof (getProp_at item ["data"; "itemMods"] "speed" Hs) as Hr3.
    destruct (getPath_parent item ["data"; "itemMods"] "speed" Hs) as [mfs Hm].
    assert (getPath item ["data"; "itemMods"] ≠ VUndef) as Hm' by (by rewrite Hm).
    pose proof (getProp_at item ["data"] "itemMods" Hm') as Hr2.
    destruct (getPath_parent item ["data"] "itemMods" Hm') as [dfs Hd].
    assert (getPath item ["data"] ≠ VUndef) as Hd' by (by rewrite Hd).
    pose proof (getProp_at item [] "data" Hd') as Hr1.
    destruct (getPath_parent item [] "data" Hd') as [fs Hitem].
    change (getPath item []) with item in *.
    pose proof (getProp_obj_at item [] fs "type" Hitem) as Hr0.
    change (getPath item []) with item in *. simpl app in *.
    unfold migrateItemData, _addItemModSpeed, _addItemValidResistedDmgAbl,
      _addExtraPowerData, _addItemForceAbl.
    rewrite Hr0. simpl. rewrite Hr1. simpl.
    destruct (is_str (getPath item ["type"]) "power") eqn:Hp.
    + assert (speed_exempt (getPath item ["type"]) = false) as Hne.
      { destruct (speed_exempt _) eqn:Hex; [|done].
        apply speed_exempt_not_power in Hex. congruence. }
      unfold speed_exempt in Hne. rewrite Hne. simpl.
      rewrite Hr2. simpl. rewrite Hr3. simpl. rewrite Hspeed. simpl.
      destruct (Hpower eq_refl) as (Habl & Hforce & Hdr).
      rewrite (getProp_obj_at item ["data"] dfs "damageResisted" Hd).
      rewrite (getProp_obj_at item ["data"] dfs "ablFatigue" Hd).
      rewrite (getProp_obj_at item ["data"] dfs "itemForceAbl" Hd).
      simpl. rewrite Habl, Hforce. simpl.
      destruct (truthy (getPath item ["data"; "damageResisted"])) eqn:Hdrt; [|done].
      destruct Hdr as [|Hdmg]; [done|].
      apply truthy_not_undef in Hdmg as Hdmg'.
      rewrite (getProp_at item ["data"; "damageResisted"] "dmgAbl" Hdmg'). simpl.
      by rewrite Hdmg.
    + simpl.
      destruct (_ || _); [done|]. simpl.
      rewrite Hr2. simpl. rewrite Hr3. simpl. by rewrite Hspeed.
Qed.

(** Case analysis on a run of the item patch function: every read that
    did not raise, and every test, both ways. *)
Ltac first_run H :=
  repeat match type of H with
    | context [getProp ?a ?b] =>
        let x := fresh "x" in let Hx := fresh "Hread" in
        destruct (getProp a b) as [x|] eqn:Hx; simpl in H; [|discriminate H]
    | context [truthy ?v] =>
        let Ht := fresh "Htruthy" in destruct (truthy v) eqn:Ht; simpl in H
    end.

(** Reads of reads are reads along a path. *)
Ltac reads_as_paths :=
  repeat match goal with
    | H : getProp _ _ = Ok _ |- _ => apply getProp_Ok_getPath in H; subst
    end;
  repeat match goal with
    | H : context [getPath (getPath ?v ?p) ?q] |- _ =>
        rewrite <- (getPath_app v p q) in H; simpl app in H
    end.

(** The value of the merged record at a path the patch does not meet, or
    at a key of the patch. *)
Ltac kept Hm :=
  match goal with
  | |- context [getPath _ ?path] => rewrite (rest_kept _ _ _ Hm path eq_refl)
  end.

Ltac won Hm key Hw :=
  pose proof (patch_wins _ _ _ Hm key _ ltac:(reflexivity) ltac:(reflexivity)) as Hw;
  let path := eval vm_compute in (split_path key) in
  change (split_path key) with path in Hw.

Ltac has_field Hm key :=
  first
    [ kept Hm; assumption
    | let Hw := fresh "Hw" in won Hm key Hw; rewrite Hw; reflexivity ].

Ltac has_speed Hm item' :=
  first
    [ kept Hm; assumption
    | let Hw := fresh "Hw" in
      won Hm "data.itemMods.speed.isActive" Hw;
      destruct (getPath_parent item' ["data"; "itemMods"; "speed"] "isActive")
        as [fs Hfs]; [simpl app; by rewrite Hw | by rewrite Hfs] ].

(** Whatever patch the item patch function returns for an item, an item
    that carries the patch, and is the first item elsewhere, needs no
    patch. *)
Lemma item_patch_settles item p item' :
  migrateItemData item = Ok p → merged item p item' → migrateItemData item' = Ok [].
Proof.
  intros Hrun Hm. pose proof Hrun as Hrun0.
  unfold migrateItemData, _addItemModSpeed, _addItemValidResistedDmgAbl,
    _addExtraPowerData, _addItemForceAbl in Hrun.
  destruct (getProp item "type") as [ty|] eqn:Hty; [|done]. simpl in Hrun.
  destruct (is_str ty "power") eqn:Hp.
  - assert (is_str ty "focus" || is_str ty "honorifics" || is_str ty "relationship"
            || is_str ty "membership" || is_str ty "stunts" = false) as Hne.
    { apply is_str_eq in Hp as ->. done. }
    rewrite Hne in Hrun. simpl in Hrun.
    first_run Hrun; injection Hrun as <-; reads_as_paths.
    all: apply settled_no_patch; split;
      [ has_speed Hm item'
      | intros _; split; [has_field Hm "data.ablFatigue"|];
        split; [has_field Hm "data.itemForceAbl"|];
        first [ right; has_field Hm "data.damageResisted.dmgAbl"
              | left; kept Hm; assumption ] ].
  - destruct (_ || _) eqn:Hex; simpl in Hrun.
    + injection Hrun as <-. by rewrite (merged_nil _ _ Hm).
    + first_run Hrun; injection Hrun as <-; reads_as_paths.
      all: apply settled_no_patch; split;
        [ has_speed Hm item' | kept Hm; congruence ].
Qed.

Lemma addActorConditions_pass u actor ty :
  getProp actor "type" = Ok ty → conditions_pass actor ty →
  _addActorConditions u actor = (Ok u, actor).
Proof.
  intros Hty Hpass. unfold _addActorConditions.
  cbv [mbind M_bind lift get put mret M_ret]. rewrite Hty.
  destruct Hpass as [Hnc | (data & cur & owned & Hdata & Hcur & Htr & Hobj & Hown)].
  - by rewrite Hnc.
  - destruct (is_str ty "char"); [|done]. cbn [negb].
    rewrite Hdata, Hcur, Htr, Hobj, Hown.
    destruct (forallb id owned); [done|].
    by rewrite Hdata, Hcur, Htr.
Qed.

Lemma addActorConditions_Ok u actor u' :
  (_addActorConditions u actor).1 = Ok u' →
  ∃ ty, getProp actor "type" = Ok ty ∧ conditions_pass actor ty.
Proof.
  unfold _addActorConditions.
  cbv [mbind M_bind lift get put mret M_ret].
  destruct (getProp actor "type") as [ty|] eqn:Hty; [|done].
  intros Hrun. exists ty. split; [done|]. unfold conditions_pass.
  destruct (is_str ty "char") eqn:Hc; [right | by left]. cbn [negb] in Hrun.
  destruct (getProp actor "data") as [data|] eqn:Hdata; [|done].
  destruct (getProp data "conditions") as [cur|] eqn:Hcur; [|done].
  destruct (truthy cur) eqn:Htr.
  - destruct (typeof_object cur) eqn:Hobj.
    + destruct (mapM (hasOwnProperty cur) conditions) as [owned|] eqn:Hown; [|done].
      by exists data, cur, owned.
    + exfalso. destruct actor as [| | | | | |fs]; try done.
      simpl in Hdata. injection Hdata as <-.
      destruct (lookup_field "data" fs) as [d|] eqn:Hd; [|done]. simpl in Hcur.
      destruct d as [| | | | | |dfs]; simpl in Hcur; try discriminate Hcur;
        try (injection Hcur as <-; done).
      simpl in Hrun. rewrite Hd in Hrun. simpl in Hrun.
      rewrite lookup_set_field_eq in Hrun. simpl in Hrun.
      rewrite lookup_delete_field_eq in Hrun. done.
  - exfalso. rewrite Hdata, Hcur, Htr in Hrun. done.
Qed.

Lemma addVehicleCustomDmg_Ok actor ty u :
  getProp actor "type" = Ok ty →
  (∃ u', _addVehicleCustomDmg actor u = Ok u') ↔ is_str ty "vehicle" = false.
Proof.
  intros Hty. unfold _addVehicleCustomDmg. rewrite Hty. simpl.
  destruct (is_str ty "vehicle"); simpl.
  - split; [|done]. intros [u' Hrun].
    destruct (getProp actor "data"); [|done]. simpl in Hrun.
    by destruct (method_hasOwnProperty _).
  - split; [done | eauto].
Qed.

Lemma addVehicleCustomDmg_pass actor ty u :
  getProp actor "type" = Ok ty → is_str ty "vehicle" = false →
  _addVehicleCustomDmg actor u = Ok u.
Proof. intros Hty Hv. unfold _addVehicleCustomDmg. rewrite Hty. simpl. by rewrite Hv. Qed.

Section ActorRuns.

Context {helpers : Helpers}.

Lemma migrateActorData_pass actor ty :
  getProp actor "type" = Ok ty → conditions_pass actor ty → is_str ty "vehicle" = false →
  migrateActorData actor = items_patch actor.
Proof.
  intros Hty Hpass Hv. unfold migrateActorData, migrateActorData_st.
  unfold mbind at 1. unfold M_bind.
  rewrite (addActorConditions_pass [] actor ty Hty Hpass).
  cbv [mbind M_bind lift get put mret M_ret].
  rewrite (addVehicleCustomDmg_pass actor ty [] Hty Hv).
  unfold items_patch.
  destruct (getProp actor "items") as [items|]; [|done]. simpl.
  destruct (truthy items); simpl; [|done].
  destruct (array_map _ _ _) as [migrated|]; [|done]. simpl.
  by destruct (existsb fst migrated).
Qed.

Lemma migrateActorData_Ok actor p :
  migrateActorData actor = Ok p →
  ∃ ty, getProp actor "type" = Ok ty ∧ conditions_pass actor ty
        ∧ is_str ty "vehicle" = false.
Proof.
  unfold migrateActorData, migrateActorData_st.
  unfold mbind at 1. unfold M_bind.
  destruct (_addActorConditions [] actor) as [[u|e] actor1] eqn:Hconds; [|done].
  assert ((_addActorConditions [] actor).1 = Ok u) as Hc by (by rewrite Hconds).
  apply addActorConditions_Ok in Hc as (ty & Hty & Hpass).
  rewrite (addActorConditions_pass [] actor ty Hty Hpass) in Hconds.
  injection Hconds as <- <-.
  cbv [mbind M_bind lift get put mret M_ret].
  destruct (_addVehicleCustomDmg actor []) as [u'|] eqn:Hveh; [|done].
  intros _. exists ty. split; [done|]. split; [done|].
  apply (addVehicleCustomDmg_Ok actor ty [] Hty). eauto.
Qed.

Lemma owned_item_settles i b m :
  (∀ q m', migrateItemData i = Ok q → mergeObject i q = Ok m' → merged i q m') →
  migrateOwnedItem i = Ok (b, m) → migrateOwnedItem m = Ok (false, m).
Proof.
  intros Hmerge. unfold migrateOwnedItem.
  destruct (migrateItemData i) as [q|] eqn:Hq; [|done]. simpl.
  destruct (isObjectEmpty q) eqn:Hempty; simpl.
  - intros [= <- <-]. rewrite Hq. simpl. by rewrite Hempty.
  - destruct (mergeObject i q) as [m'|] eqn:Hm'; [|done]. simpl.
    intros [= <- <-].
    by rewrite (item_patch_settles i q m' Hq (Hmerge q m' eq_refl Hm')).
Qed.

Lemma owned_items_settle (xs : list value) migrated :
  (∀ i q m, i ∈ xs → migrateItemData i = Ok q → mergeObject i q = Ok m → merged i q m) →
  mapM migrateOwnedItem xs = Ok migrated →
  ∃ again, mapM migrateOwnedItem (migrated.*2) = Ok again ∧ existsb fst again = false.
Proof.
  intros Hmerge Hmap. apply mapM_Ok_Forall2 in Hmap.
  induction Hmap as [|i [b m] xs migrated Hi _ IH].
  - by exists [].
  - destruct IH as (again & Hagain & Hnone).
    { intros i' q m' Hin. apply Hmerge. by right. }
    exists ((false, m) :: again). split; [|done].
    apply mapM_Ok_Forall2. constructor.
    + apply (owned_item_settles i b m); [|done].
      intros q m'. apply Hmerge. by left.
    + by apply mapM_Ok_Forall2.
Qed.

(** Whatever patch the actor patch function returns for an actor, an
    actor that carries the patch, and is the first actor elsewhere,
    needs no patch, provided the host's merge of each owned item's
    patch into the item is a merge. *)
Lemma actor_patch_settles actor p actor' :
  (∀ i q m, i ∈ owned_items actor → migrateItemData i = Ok q →
            mergeObject i q = Ok m → merged i q m) →
  migrateActorData actor = Ok p → merged actor p actor' →
  migrateActorData actor' = Ok [].
Proof.
  intros Hmerge Hrun Hm. pose proof Hrun as Hrun0.
  destruct (migrateActorData_Ok actor p Hrun) as (ty & Hty & Hpass & Hv).
  rewrite (migrateActorData_pass actor ty Hty Hpass Hv) in Hrun.
  unfold items_patch in Hrun.
  destruct (getProp actor "items") as [items|] eqn:Hitems; [|done]. simpl in Hrun.
  destruct (truthy items) eqn:Htr; simpl in Hrun;
    [|injection Hrun as <-; by rewrite (merged_nil _ _ Hm)].
  destruct (array_map "actor.items" items migrateOwnedItem) as [migrated|] eqn:Hmap;
    [|done]. simpl in Hrun.
  destruct (existsb fst migrated) eqn:Hex; injection Hrun as <-;
    [|by rewrite (merged_nil _ _ Hm)].
  destruct items as [| | | | |xs|]; try done. simpl in Hmap.
  assert (getPath actor' ["items"] = VArr (migrated.*2)) as Hitems'
    by exact (patch_wins _ _ _ Hm "items" _ eq_refl eq_refl).
  destruct (getPath_parent actor' [] "items") as [fs Hfs];
    [simpl app; by rewrite Hitems'|].
  change (getPath actor' []) with actor' in Hfs. subst actor'.
  assert (∀ k, getProp (VObj fs) k = Ok (getPath (VObj fs) [k])) as Hroot.
  { intros k. unfold getPath. simpl. by destruct (lookup_field k fs). }
  assert (∀ k x, k ≠ "items" → getProp actor k = Ok x → getProp (VObj fs) k = Ok x)
    as Hsame.
  { intros k x Hk Hx. apply getProp_Ok_getPath in Hx as ->.
    rewrite Hroot. f_equal.
    apply (rest_kept _ _ _ Hm). unfold untouched, meets.
    cbn [forallb fst]. change (split_path "items") with ["items"].
    cbn [leads_through].
    destruct (String.eqb "items" k) eqn:E; [apply String.eqb_eq in E; congruence|].
    rewrite String.eqb_sym in E. by rewrite E. }
  assert (conditions_pass (VObj fs) ty) as Hpass'.
  { destruct Hpass as [Hnc | (data & cur & owned & Hdata & Hrest)]; [by left|].
    right. exists data, cur, owned. split; [|done]. by apply Hsame. }
  rewrite (migrateActorData_pass (VObj fs) ty (Hsame "type" ty ltac:(done) Hty) Hpass' Hv).
  unfold items_patch.
  rewrite Hroot, Hitems'. simpl.
  destruct (owned_items_settle xs migrated) as (again & Hagain & Hnone); [|done|].
  - intros i q m Hin. apply Hmerge. unfold owned_items.
    apply getProp_Ok_getPath in Hitems. by rewrite <- Hitems.
  - rewrite Hagain. simpl. by rewrite Hnone.
Qed.

End ActorRuns.

(** *** The merge that writes the keys in order *)

Lemma setPath_kept v k x q :
  meets k q = false → getPath (setPath v k x) q = getPath v q.
Proof.
  unfold meets. revert v q. induction k as [|a k IH]; intros v q; [done|].
  destruct q as [|b q]; [by rewrite orb_true_r|].
  cbn [leads_through setPath]. intros Hmeet.
  change (getPath ?r (b :: q)) with
    (match r with
     | VObj fs => match lookup_field b fs with Some y => getPath y q | None => VUndef end
     | _ => VUndef
     end).
  destruct (String.eqb a b) eqn:E.
  - apply String.eqb_eq in E as <-. rewrite String.eqb_refl in Hmeet.
    rewrite lookup_set_field_eq, IH by done.
    destruct v as [| | | | | |fs]; try apply getPath_undef.
    destruct (lookup_field a fs); [done | apply getPath_undef].
  - assert (a ≠ b) as Hne by (intros ->; by rewrite String.eqb_refl in E).
    rewrite lookup_set_field_ne by done.
    by destruct v.
Qed.

Lemma mergePatch_kept r u q :
  untouched u q = true → getPath (mergePatch r u) q = getPath r q.
Proof.
  unfold mergePatch, untouched. revert r.
  induction u as [|[k x] u IH]; intros r; [done|].
  cbn [forallb foldl fst snd]. intros [Hk Hu]%andb_true_iff.
  rewrite IH by done. apply setPath_kept. by apply negb_true_iff.
Qed.

Lemma lookup_field_elem k v (u : obj) : lookup_field k u = Some v → (k, v) ∈ u.
Proof.
  induction u as [|[k' v'] u IH]; [done|]. cbn [lookup_field].
  destruct (String.eqb k k') eqn:E.
  - apply String.eqb_eq in E as <-. intros [= <-]. by left.
  - intros H. right. by apply IH.
Qed.

Lemma mergePatch_merged r u :
  Forall (λ kv, is_leaf kv.2 = true → getPath (mergePatch r u) (split_path kv.1) = kv.2) u →
  merged r u (mergePatch r u).
Proof.
  intros Hall. split.
  - intros k v Hk Hleaf. apply lookup_field_elem in Hk.
    by apply (proj1 (list.Forall_forall _ _) Hall (k, v)).
  - apply mergePatch_kept.
Qed.

Ltac merged_by_computation :=
  apply mergePatch_merged;
  repeat (apply Forall_cons;
          [ let Hleaf := fresh "Hleaf" in
            intros Hleaf; vm_compute in Hleaf |- *;
            first [discriminate Hleaf | reflexivity] |]);
  apply Forall_nil.

(** A merge in order is not always a merge: on the half-filled power the
    patch names [damageResisted.dmgAbl] before [damageResisted], the
    later key overwrites the earlier, and the second patch is not
    empty. *)
Remark merge_in_order_loses_a_key :
  ∃ p, migrateItemData power_half_filled = Ok p
       ∧ lookup_field "data.damageResisted.dmgAbl" p = Some (VStr "will")
       ∧ getPath (mergePatch power_half_filled p) ["data"; "damageResisted"; "dmgAbl"]
         = VUndef
       ∧ migrateItemData (mergePatch power_half_filled p)
         = Ok [("data.damageResisted.dmgAbl", VStr "will")].
Proof. eexists. split; [reflexivity|]. by vm_compute. Qed.

(** C4, amended: when the item patch function returns a patch for an
    item, it returns the empty patch on every merge of that patch into
    the item; and so does the actor patch function for an actor, when
    the host's merge of an owned item's patch into the item is a merge.
    A merge holds the patch's values at their paths and leaves the rest
    of the record as it was. *)
Theorem patch_idempotent {helpers : Helpers} :
  (∀ item p item',
     migrateItemData item = Ok p → merged item p item' →
     migrateItemData item' = Ok [])
  ∧ (∀ actor p actor',
       (∀ i q m, i ∈ owned_items actor → migrateItemData i = Ok q →
                 mergeObject i q = Ok m → merged i q m) →
       migrateActorData actor = Ok p → merged actor p actor' →
       migrateActorData actor' = Ok []).
Proof. split; [apply item_patch_settles | apply actor_patch_settles]. Qed.

(** The stale power, and the hero who owns it, under the merge in
    order. *)
Lemma patch_idempotent_witness :
  (∃ p, migrateItemData power_with_mods = Ok p
        ∧ migrateItemData (mergePatch power_with_mods p) = Ok [])
  ∧ (∃ p, migrateActorData (helpers := model_helpers) hero = Ok p
          ∧ p ≠ []
          ∧ migrateActorData (helpers := model_helpers) (mergePatch hero p) = Ok []).
Proof.
  split.
  - eexists. split; [reflexivity|].
    eapply (proj1 (patch_idempotent (helpers := model_helpers)) power_with_mods);
      [reflexivity|].
    merged_by_computation.
  - eexists. split; [reflexivity|]. split; [done|].
    eapply (proj2 (patch_idempotent (helpers := model_helpers)) hero); [|reflexivity|].
    + intros i q m Hin Hq [= <-].
      apply elem_of_cons in Hin as [-> | Hin].
      { injection Hq as <-. merged_by_computation. }
      apply elem_of_cons in Hin as [-> | Hin].
      { injection Hq as <-. merged_by_computation. }
      by apply elem_of_nil in Hin.
    + merged_by_computation.
Defined.

(** Idempotence as the specification states it fails where the patch
    function returns no patch: on an item without [itemMods], and on a
    vehicle. *)
Lemma not_idempotent_without_patch :
  ¬ idempotent_on migrateItemData weapon_bare
  ∧ ¬ idempotent_on (migrateActorData (helpers := model_helpers)) vehicle_bare.
Proof. split; intros (p & Hrun & _); vm_compute in Hrun; discriminate Hrun. Qed.

(** ** More on the item patch function *)

(** The tests of a run, written into the goal. *)
Ltac use_tests :=
  repeat match goal with
    | H : truthy _ = _ |- _ => rewrite ?H; clear H
    | H : is_str _ "power" = _ |- _ => rewrite ?H; clear H
    end.

(** X4: whatever patch the item patch function returns, each of its keys
    is one of the fourteen keys of the source, and holds the constant the
    source writes there: nothing of the item goes into its patch. *)
Theorem item_patch_from_defaults item p :
  migrateItemData item = Ok p →
  ∀ k v, lookup_field k p = Some v → lookup_field k item_defaults = Some v.
Proof.
  intros Hrun k v Hk.
  unfold migrateItemData, _addItemModSpeed, _addItemValidResistedDmgAbl,
    _addExtraPowerData, _addItemForceAbl in Hrun.
  destruct (getProp item "type") as [ty|] eqn:Hty; [|done]. simpl in Hrun.
  destruct (is_str ty "power") eqn:Hp; simpl in Hrun;
    destruct (_ || _) eqn:Hex; simpl in Hrun;
    first_run Hrun; injection Hrun as <-;
    apply lookup_field_elem in Hk;
    repeat (apply elem_of_cons in Hk as [[= -> ->] | Hk]; [reflexivity|]);
    by apply elem_of_nil in Hk.
Qed.

Lemma item_patch_from_defaults_witness :
  ∃ p, migrateItemData power_with_blanks = Ok p
       ∧ lookup_field "data.damageResisted.nrDice" p = Some (VNum 1)
       ∧ lookup_field "data.damageResisted.nrDice" item_defaults = Some (VNum 1).
Proof.
  eexists. split; [reflexivity|]. split; [reflexivity|].
  eapply (item_patch_from_defaults power_with_blanks); reflexivity.
Defined.
(** X5: in a patch the item patch function returns, the speed default is
    there exactly when the subtype is not passed over and the item's
    speed modifier is falsy; the fatigue bundle exactly when the item is
    a power whose [ablFatigue] is falsy; [itemForceAbl] exactly when the
    item is a power whose [itemForceAbl] is falsy; and
    [damageResisted.dmgAbl] exactly when the item is a power whose
    [ablFatigue] is falsy, or which has a [damageResisted] with a falsy
    [dmgAbl].  A value that is there but falsy (an empty string, zero,
    false, null) counts as absent. *)
Theorem item_patch_presence item p :
  migrateItemData item = Ok p →
  let at_ path := getPath item path in
  let power := is_str (at_ ["type"]) "power" in
  (has_field "data.itemMods.speed" p = true
   ↔ speed_exempt (at_ ["type"]) = false
     ∧ truthy (at_ ["data"; "itemMods"; "speed"]) = false)
  ∧ (has_field "data.ablFatigue" p = true
     ↔ power = true ∧ truthy (at_ ["data"; "ablFatigue"]) = false)
  ∧ (has_field "data.itemForceAbl" p = true
     ↔ power = true ∧ truthy (at_ ["data"; "itemForceAbl"]) = false)
  ∧ (has_field "data.damageResisted.dmgAbl" p = true
     ↔ power = true
       ∧ (truthy (at_ ["data"; "ablFatigue"]) = false
          ∨ (truthy (at_ ["data"; "damageResisted"]) = true
             ∧ truthy (at_ ["data"; "damageResisted"; "dmgAbl"]) = false))).
Proof.
  intros Hrun. cbv zeta.
  unfold migrateItemData, _addItemModSpeed, _addItemValidResistedDmgAbl,
    _addExtraPowerData, _addItemForceAbl in Hrun.
  destruct (getProp item "type") as [ty|] eqn:Hty; [|done]. simpl in Hrun.
  destruct (is_str ty "power") eqn:Hp; simpl in Hrun.
  - assert (speed_exempt ty = false) as Hne.
    { apply is_str_eq in Hp as ->. done. }
    pose proof Hne as Hne'. unfold speed_exempt in Hne'.
    rewrite Hne' in Hrun. simpl in Hrun.
    first_run Hrun; injection Hrun as <-; reads_as_paths; rewrite Hne; use_tests;
      cbn; intuition congruence.
  - destruct (speed_exempt ty) eqn:Hex; pose proof Hex as Hex';
      unfold speed_exempt in Hex'; rewrite Hex' in Hrun; simpl in Hrun.
    + injection Hrun as <-. reads_as_paths. rewrite Hex, Hp. cbn. intuition congruence.
    + first_run Hrun; injection Hrun as <-; reads_as_paths; rewrite Hex; use_tests;
        cbn; intuition congruence.
Qed.

Lemma item_patch_presence_witness :
  ∃ p, migrateItemData power_with_blanks = Ok p
       ∧ has_field "data.itemMods.speed" p = true
       ∧ has_field "data.ablFatigue" p = true
       ∧ has_field "data.itemForceAbl" p = true
       ∧ has_field "data.damageResisted.dmgAbl" p = true.
Proof.
  eexists. split; [reflexivity|].
  destruct (item_patch_presence power_with_blanks _ eq_refl) as (H1 & H2 & H3 & H4).
  split; [apply H1; split; reflexivity|].
  split; [apply H2; split; reflexivity|].
  split; [apply H3; split; reflexivity|].
  apply H4. split; [reflexivity | left; reflexivity].
Defined.
(** X6: for a power that has a [damageResisted] with a falsy [dmgAbl] and
    whose [ablFatigue] is falsy, the patch names the key
    [data.damageResisted.dmgAbl] before the key [data.damageResisted],
    which holds the empty object: the fix of [dmgAbl] is written first,
    the bundle after it.  When [damageResisted] is falsy the object comes
    first. *)
Theorem dmgAbl_fix_precedes_bundle item p :
  migrateItemData item = Ok p →
  let at_ path := getPath item path in
  is_str (at_ ["type"]) "power" = true →
  truthy (at_ ["data"; "ablFatigue"]) = false →
  ∃ i j,
    p !! i = Some ("data.damageResisted.dmgAbl", VStr "will")
    ∧ p !! j = Some ("data.damageResisted", VObj [])
    ∧ (truthy (at_ ["data"; "damageResisted"]) = true →
       truthy (at_ ["data"; "damageResisted"; "dmgAbl"]) = false → i < j)
    ∧ (truthy (at_ ["data"; "damageResisted"]) = false → j < i).
Proof.
  intros Hrun. cbv zeta. intros Hpower Habl.
  unfold migrateItemData, _addItemModSpeed, _addItemValidResistedDmgAbl,
    _addExtraPowerData, _addItemForceAbl in Hrun.
  destruct (getProp item "type") as [ty|] eqn:Hty; [|done]. simpl in Hrun.
  apply getProp_Ok_getPath in Hty as ->. rewrite Hpower in Hrun.
  assert (speed_exempt (getPath item ["type"]) = false) as Hne.
  { apply is_str_eq in Hpower as ->. done. }
  unfold speed_exempt in Hne. rewrite Hne in Hrun. simpl in Hrun.
  first_run Hrun; injection Hrun as <-; reads_as_paths;
    try congruence;
    first [ exists 0, 6; repeat split; (done || congruence || lia)
          | exists 3, 9; repeat split; (done || congruence || lia)
          | exists 9, 5; repeat split; (done || congruence || lia)
          | exists 12, 8; repeat split; (done || congruence || lia) ].
Qed.

Lemma dmgAbl_fix_precedes_bundle_witness :
  ∃ p i j,
    migrateItemData power_with_blanks = Ok p
    ∧ p !! i = Some ("data.damageResisted.dmgAbl", VStr "will")
    ∧ p !! j = Some ("data.damageResisted", VObj [])
    ∧ i < j.
Proof.
  destruct (dmgAbl_fix_precedes_bundle power_with_blanks _ eq_refl eq_refl eq_refl)
    as (i & j & Hi & Hj & Hlt & _).
  eexists _, i, j. split; [reflexivity|]. split; [exact Hi|]. split; [exact Hj|].
  apply Hlt; reflexivity.
Defined.

(** ** More on the actor patch function *)

Section ActorPatch.

Context {helpers : Helpers}.

(** A run that returns has passed both helpers with nothing added, and
    has run the callback on every owned item. *)
Lemma actor_items_run actor p xs :
  migrateActorData actor = Ok p →
  getProp actor "items" = Ok (VArr xs) →
  ∃ migrated,
    mapM migrateOwnedItem xs = Ok migrated
    ∧ p = if existsb fst migrated then [("items", VArr (migrated.*2))] else [].
Proof.
  intros Hrun Hitems.
  destruct (migrateActorData_Ok actor p Hrun) as (ty & Hty & Hpass & Hv).
  rewrite (migrateActorData_pass actor ty Hty Hpass Hv) in Hrun.
  unfold items_patch in Hrun. rewrite Hitems in Hrun. simpl in Hrun.
  destruct (mapM migrateOwnedItem xs) as [migrated|]; [|done]. simpl in Hrun.
  exists migrated. split; [done|].
  by destruct (existsb fst migrated); injection Hrun as <-.
Qed.

Lemma migrateOwnedItem_Ok x b y :
  migrateOwnedItem x = Ok (b, y) →
  (b = false ∧ migrateItemData x = Ok [] ∧ y = x)
  ∨ (b = true ∧ ∃ q, migrateItemData x = Ok q ∧ q ≠ [] ∧ mergeObject x q = Ok y).
Proof.
  unfold migrateOwnedItem.
  destruct (migrateItemData x) as [q|]; [|done]. simpl.
  destruct q as [|kv q]; simpl.
  - intros [= <- <-]. by left.
  - destruct (mergeObject x (kv :: q)) as [m|] eqn:Hm; [|done]. simpl.
    intros [= <- <-]. right. split; [done|]. by exists (kv :: q).
Qed.

(** X7: a patch the actor patch function returns is empty or holds the
    one key [items] with a list: no patch it returns ever holds
    [data.conditions], a condition flag, or a custom damage of a
    vehicle. *)
Theorem actor_patch_shape actor p :
  migrateActorData actor = Ok p →
  (p = [] ∨ ∃ out, p = [("items", VArr out)])
  ∧ ∀ k, k ≠ "items" → lookup_field k p = None.
Proof.
  intros Hrun.
  assert (p = [] ∨ ∃ out, p = [("items", VArr out)]) as Hshape.
  { destruct (migrateActorData_Ok actor p Hrun) as (ty & Hty & Hpass & Hv).
    rewrite (migrateActorData_pass actor ty Hty Hpass Hv) in Hrun.
    unfold items_patch in Hrun.
    destruct (getProp actor "items") as [items|]; [|done]. simpl in Hrun.
    destruct (truthy items); simpl in Hrun; [|left; by injection Hrun].
    destruct (array_map _ _ _) as [migrated|]; [|done]. simpl in Hrun.
    destruct (existsb fst migrated); injection Hrun as <-; eauto. }
  split; [done|]. intros k Hk.
  destruct Hshape as [-> | [out ->]]; [done|]. cbn [lookup_field].
  destruct (String.eqb k "items") eqn:E; [|done].
  by apply String.eqb_eq in E.
Qed.

(** X8: when the actor patch function returns for an actor whose [items]
    are a list, either no owned item needs a patch and the patch is
    empty, or the patch holds a list of the same length and order, in
    which each owned item that needs no patch stands as it was and each
    other is replaced by the host's merge of its patch into it. *)
Theorem owned_items_in_place actor p xs :
  migrateActorData actor = Ok p →
  getProp actor "items" = Ok (VArr xs) →
  (p = [] ∧ Forall (λ x, migrateItemData x = Ok []) xs)
  ∨ (∃ out, p = [("items", VArr out)]
            ∧ Forall2 kept_or_merged xs out
            ∧ Exists stale xs).
Proof.
  intros Hrun Hitems.
  destruct (actor_items_run actor p xs Hrun Hitems) as (migrated & Hmap & ->).
  apply mapM_Ok_Forall2 in Hmap. clear Hrun Hitems.
  assert (Forall2 kept_or_merged xs (migrated.*2)
          ∧ (existsb fst migrated = false → Forall (λ x, migrateItemData x = Ok []) xs)
          ∧ (existsb fst migrated = true → Exists stale xs)) as (Hall & Hnone & Hsome).
  { induction Hmap as [|x [b y] xs migrated Hx _ (IH1 & IH2 & IH3)]; [by repeat split|].
    apply migrateOwnedItem_Ok in Hx as [(-> & Hq & ->) | (-> & q & Hq & Hne & Hm)];
      cbn [existsb fst fmap list_fmap snd orb].
    - split; [constructor; [by left | done]|].
      split; [intros Hb; constructor; auto | intros Hb; right; auto].
    - split; [constructor; [right; by exists q | done]|].
      split; [done | intros _; left; by exists q]. }
  destruct (existsb fst migrated); [right | left]; eauto.
Qed.

(** X9: an owned item on which the item patch function raises makes the
    actor patch function raise: the actor gets no patch, and none of its
    other items is migrated. *)
Theorem failing_item_fails_actor actor xs x err :
  getProp actor "items" = Ok (VArr xs) →
  x ∈ xs →
  migrateItemData x = Throw err →
  ∃ err', migrateActorData actor = Throw err'.
Proof.
  intros Hitems Hin Hx.
  destruct (migrateActorData actor) as [p|err'] eqn:Hrun; [|eauto].
  destruct (actor_items_run actor p xs Hrun Hitems) as (migrated & Hmap & _).
  apply mapM_Ok_Forall2 in Hmap.
  apply list_elem_of_lookup in Hin as [i Hi].
  destruct (Forall2_lookup_l _ _ _ _ _ Hmap Hi) as (y & _ & Hy).
  unfold migrateOwnedItem in Hy. by rewrite Hx in Hy.
Qed.

(** X10: the actor patch function changes the record it is handed in one
    case only: for a char whose conditions are truthy and no object it
    deletes [data.conditions] from the record, and then raises; the
    deletion stays.  A run that returns leaves the record as it was. *)
Theorem conditions_deleted_despite_failure actor :
  ((migrateActorData_st actor).2 = actor
   ∨ (migrateActorData_st actor).2 = delete_data_conditions actor)
  ∧ (∀ p, migrateActorData actor = Ok p → (migrateActorData_st actor).2 = actor)
  ∧ (∀ fs dfs cur,
       actor = VObj fs →
       lookup_field "type" fs = Some (VStr "char") →
       lookup_field "data" fs = Some (VObj dfs) →
       lookup_field "conditions" dfs = Some cur →
       truthy cur = true → typeof_object cur = false →
       migrateActorData_st actor
       = (unbound "udpateData",
          VObj (set_field "data" (VObj (delete_field "conditions" dfs)) fs))).
Proof.
  assert ((migrateActorData_st actor).2 = (_addActorConditions [] actor).2) as Hrest.
  { unfold migrateActorData_st. unfold mbind at 1. unfold M_bind.
    destruct (_addActorConditions [] actor) as [[u|e] s]; [|done].
    cbv [mbind M_bind lift get put mret M_ret].
    repeat case_match; by simplify_eq/=. }
  split; [|split].
  - rewrite Hrest. unfold _addActorConditions.
    cbv [mbind M_bind lift get put mret M_ret].
    repeat case_match; simplify_eq/=; eauto.
  - intros p Hrun.
    destruct (migrateActorData_Ok actor p Hrun) as (ty & Hty & Hpass & Hv).
    by rewrite Hrest, (addActorConditions_pass [] actor ty Hty Hpass).
  - intros fs dfs cur -> Hty Hdata Hcur Htr Hobj.
    unfold migrateActorData_st, _addActorConditions.
    cbv [mbind M_bind lift get put mret M_ret].
    simpl. rewrite Hty. simpl. rewrite Hdata. simpl. rewrite Hcur. simpl.
    rewrite Htr, Hobj. simpl.
    rewrite lookup_set_field_eq. simpl. rewrite lookup_delete_field_eq. done.
Qed.

End ActorPatch.

(** The hero, whose patch is the list of his items. *)
Lemma actor_patch_shape_witness :
  ∃ p, migrateActorData (helpers := model_helpers) hero = Ok p
       ∧ (p = [] ∨ ∃ out, p = [("items", VArr out)])
       ∧ lookup_field "data.conditions" p = None.
Proof.
  eexists. split; [reflexivity|].
  destruct (actor_patch_shape (helpers := model_helpers) hero _ eq_refl) as [Hs Hk].
  split; [exact Hs|]. by apply Hk.
Defined.

(** An actor owning a focus, which is kept, and a stale power, which is
    merged. *)
Lemma owned_items_in_place_witness :
  ∃ out, migrateActorData (helpers := model_helpers) npc = Ok [("items", VArr out)]
         ∧ Forall2 (kept_or_merged (helpers := model_helpers))
             [focus_item; power_with_mods] out.
Proof.
  destruct (owned_items_in_place (helpers := model_helpers) npc _
              [focus_item; power_with_mods] eq_refl eq_refl)
    as [[Hnil _] | (out & Hp & Hall & _)]; [discriminate Hnil|].
  exists out. split; [|exact Hall]. injection Hp as <-. reflexivity.
Defined.

(** An actor whose third item has no [itemMods]. *)
Lemma failing_item_fails_actor_witness :
  ∃ err', migrateActorData (helpers := model_helpers) npc_with_broken_item = Throw err'.
Proof.
  apply (failing_item_fails_actor (helpers := model_helpers) npc_with_broken_item
           [focus_item; power_with_mods; weapon_bare] weapon_bare
           (cannot_read "speed" VUndef)).
  - reflexivity.
  - apply list_elem_of_lookup. by exists 2.
  - reflexivity.
Defined.

(** A char whose conditions are a string: the run raises, and the record
    has lost them. *)
Lemma conditions_deleted_despite_failure_witness :
  migrateActorData_st (helpers := model_helpers) char_with_text_conditions
  = (unbound "udpateData",
     VObj [("type", VStr "char"); ("data", VObj [("health", VNum 12)]);
           ("items", VArr [power_with_mods])]).
Proof.
  exact (proj2 (proj2 (conditions_deleted_despite_failure (helpers := model_helpers)
                         char_with_text_conditions))
           [("type", VStr "char");
            ("data", VObj [("conditions", VStr "none"); ("health", VNum 12)]);
            ("items", VArr [power_with_mods])]
           [("conditions", VStr "none"); ("health", VNum 12)] (VStr "none")
           eq_refl eq_refl eq_refl eq_refl eq_refl eq_refl).
Defined.

(** ** More on the scene patch function *)

Lemma set_field_twice k v v' fs : set_field k v (set_field k v' fs) = set_field k v fs.
Proof.
  induction fs as [|[k0 v0] fs IH]; cbn [set_field].
  - by rewrite String.eqb_refl.
  - destruct (String.eqb k k0) eqn:E; cbn [set_field]; rewrite E; [done | by rewrite IH].
Qed.

Section SceneTokens.

Context {helpers : Helpers}.

(** X11: a patch the scene patch function returns is never empty: it
    holds the one key [tokens], with a list as long as the scene's token
    list, whether or not any token has changed. *)
Theorem scene_patch_never_empty scene p :
  migrateSceneData scene = Ok p →
  isObjectEmpty p = false
  ∧ ∃ toks out,
      getProp scene "tokens" = Ok (VArr toks)
      ∧ p = [("tokens", VArr out)]
      ∧ length out = length toks.
Proof.
  unfold migrateSceneData. intros Hrun.
  destruct (getProp scene "tokens") as [toks|] eqn:Htoks; [|done]. simpl in Hrun.
  destruct (duplicate toks) as [copy|] eqn:Hcopy; [|done]. simpl in Hrun.
  destruct (array_map "tokens" copy migrateToken) as [out|] eqn:Hout; [|done].
  injection Hrun as <-. split; [done|].
  destruct copy as [| | | | |ts|]; try done. simpl in Hout.
  destruct toks as [| | | | |xs|]; try done. injection Hcopy as <-.
  exists xs, out. split; [done|]. split; [done|].
  apply mapM_Ok_Forall2, Forall2_length in Hout.
  by rewrite <- Hout, length_map.
Qed.

(** X12: on a token that is an object the callback of the scene patch
    function changes [actorId] and [actorData] only: every other field
    of the token it returns is as in the token it was given; and
    [actorId] is as it was or null. *)
Theorem token_frame fs t' :
  migrateToken (VObj fs) = Ok t' →
  ∃ fs', t' = VObj fs'
         ∧ (∀ k, k ≠ "actorId" → k ≠ "actorData" →
                 lookup_field k fs' = lookup_field k fs)
         ∧ (lookup_field "actorId" fs' = lookup_field "actorId" fs
            ∨ lookup_field "actorId" fs' = Some VNull).
Proof.
  unfold migrateToken. intros Hrun.
  apply bind_Ok in Hrun as (clear & _ & Hrun).
  destruct clear.
  - injection Hrun as <-. eexists. split; [done|]. split.
    + intros k _ Hk. by apply lookup_set_field_ne.
    + left. by apply lookup_set_field_ne.
  - destruct (tokenActor (VObj fs)).
    + apply bind_Ok in Hrun as (link & _ & Hrun).
      destruct (negb (truthy link)).
      * apply bind_Ok in Hrun as (payload & _ & Hrun).
        destruct (migrateActorData_st payload) as [outcome payload'].
        apply bind_Ok in Hrun as (u & _ & Hrun).
        apply bind_Ok in Hrun as (m & _ & Hrun).
        injection Hrun as <-. eexists. split; [done|]. split.
        -- intros k _ Hk. by apply lookup_set_field_ne.
        -- left. by apply lookup_set_field_ne.
      * injection Hrun as <-. eexists. split; [done|]. split; [done | by left].
    + cbn in Hrun. injection Hrun as <-. eexists. split; [done|]. split.
      * intros k Hid Hk. by rewrite !lookup_set_field_ne.
      * right. rewrite lookup_set_field_ne by done. apply lookup_set_field_eq.
Qed.

Lemma cleared_to_clear fs v : to_clear (set_field "actorData" (VObj []) (set_field "actorId" v fs))
                              ∧ to_clear (set_field "actorData" (VObj []) fs).
Proof.
  split; right; right; unfold payload_without_data, token_field;
    rewrite lookup_set_field_eq; by exists VUndef.
Qed.

(** X13: a token the callback has cleared, or has unlinked because the
    host resolves no actor for it, is a token the callback returns as it
    is: on such tokens a second run of the scene patch function changes
    nothing. *)
Theorem cleared_token_stays fs t' :
  migrateToken (VObj fs) = Ok t' →
  to_clear fs ∨ tokenActor (VObj fs) = None →
  migrateToken t' = Ok t'.
Proof.
  intros Hrun Hcase.
  assert (t' = cleared fs
          ∨ t' = VObj (set_field "actorData" (VObj []) (set_field "actorId" VNull fs)))
    as [-> | ->].
  { destruct Hcase as [Hclear | Hnone].
    - left. rewrite (migrateToken_clears fs Hclear) in Hrun. by injection Hrun.
    - unfold migrateToken in Hrun.
      apply bind_Ok in Hrun as (clear & _ & Hrun).
      destruct clear; [left; by injection Hrun|].
      rewrite Hnone in Hrun. right. cbn in Hrun. by injection Hrun. }
  - unfold cleared. rewrite (migrateToken_clears _ (proj2 (cleared_to_clear fs VNull))).
    unfold cleared. by rewrite set_field_twice.
  - rewrite (migrateToken_clears _ (proj1 (cleared_to_clear fs VNull))).
    unfold cleared. by rewrite set_field_twice.
Qed.

End SceneTokens.

(** The scene whose one token is linked: its patch holds one token. *)
Lemma scene_patch_never_empty_witness :
  ∃ p, migrateSceneData (helpers := model_helpers) (scene_of [token_linked]) = Ok p
       ∧ isObjectEmpty p = false.
Proof.
  eexists. split; [reflexivity|].
  apply (scene_patch_never_empty (helpers := model_helpers) (scene_of [token_linked])).
  reflexivity.
Defined.

(** The orphan token keeps its place on the map, and loses its actor. *)
Lemma token_frame_witness :
  ∃ fs', migrateToken (helpers := model_helpers) token_orphan = Ok (VObj fs')
         ∧ lookup_field "x" fs' = Some (VNum 100)
         ∧ lookup_field "y" fs' = Some (VNum 250).
Proof.
  destruct (token_frame (helpers := model_helpers) _ _
              (eq_refl : migrateToken (helpers := model_helpers) token_orphan = Ok _))
    as (fs' & Heq & Hkept & _).
  exists fs'. split; [rewrite <- Heq; reflexivity|].
  split; (rewrite Hkept; [reflexivity | done | done]).
Defined.

(** The orphan token, unlinked by a first run, stays as it is in a
    second. *)
Lemma cleared_token_stays_witness :
  ∃ t', migrateToken (helpers := model_helpers) token_orphan = Ok t'
        ∧ migrateToken (helpers := model_helpers) t' = Ok t'.
Proof.
  eexists. split; [reflexivity|].
  apply (cleared_token_stays (helpers := model_helpers)
           [("actorId", VStr "gone"); ("actorLink", VBool false);
            ("actorData", VObj [("data", VObj [("health", VNum 3)])]);
            ("x", VNum 100); ("y", VNum 250)]).
  - reflexivity.
  - right. reflexivity.
Defined.

(** ** More on the orchestrator and the compendium walker *)


Lemma grows_for_of_elem {A} P (xs : list A) (body : A → M world unit) :
  (∀ x, x ∈ xs → grows P (body x)) → grows P (for_of xs body).
Proof.
  induction xs as [|x xs IH]; intros Hbody; simpl.
  - apply grows_ret.
  - apply grows_bind; [apply Hbody; by left | intros _].
    apply IH. intros y Hy. apply Hbody. by right.
Qed.

Lemma bind_run {S A B} (m : M S A) (k : A → M S B) s :
  (m ≫= k) s = match m s with
               | (Ok a, s') => k a s'
               | (Throw e, s') => (Throw e, s')
               end.
Proof. reflexivity. Qed.





Section Runs.

Context {helpers : Helpers} {server : Server}.












(** X15: a run of the orchestrator reaches nothing outside the game it
    is given: it writes only documents of the collection it is looping
    over, calls only packs of the game that belong to the world and hold
    a supported entity type, and writes only entries of such a pack. *)
Theorem calls_stay_within_game g : grows (within g) (migrateWorld g).
Proof.
  assert (∀ k a, a ∈ docs k g → grows (within g) (migrateDocument k a)) as Hdoc.
  { intros k a Hin w. rewrite migrateDocument_run.
    destruct (migrateData k (ent_data a)) as [u|err].
    - destruct (isObjectEmpty u).
      + exists []. by rewrite app_nil_r.
      + cbv zeta. destruct (rejects _ _) as [err|].
        * match goal with |- context [caught ?pfx err ?s] =>
            destruct (grows_caught (within g) pfx err (λ _, I) s)
              as (evs & -> & Hevs) end.
          simpl. rewrite <- !app_assoc. eexists. split; [reflexivity|].
          repeat constructor; done.
        * simpl. rewrite <- !app_assoc. eexists. split; [reflexivity|].
          repeat constructor; done.
    - by apply grows_caught. }
  unfold migrateWorld.
  apply grows_bind; [by apply grows_emit | intros _].
  apply grows_bind; [apply grows_for_of_elem; intros a Ha; by apply (Hdoc Actor) | intros _].
  apply grows_bind; [apply grows_for_of_elem; intros a Ha; by apply (Hdoc Item) | intros _].
  apply grows_bind; [apply grows_for_of_elem; intros a Ha; by apply (Hdoc Scene) | intros _].
  apply grows_bind; [| intros _; apply grows_bind; [by apply grows_detached | intros _];
                       by apply grows_emit].
  apply grows_for_of_elem. intros p Hp.
  destruct (String.eqb (package p) "world") eqn:Hworld; [|apply grows_ret].
  destruct (supported (pack_entity p)) eqn:Hsup; [|apply grows_ret].
  apply String.eqb_eq in Hworld. simpl.
  unfold migrateCompendium. rewrite Hsup. simpl.
  apply grows_bind; [apply grows_get | intros w0].
  repeat (apply grows_bind; [by apply grows_await | intros _]).
  apply grows_bind; [| intros _; apply grows_bind; [by apply grows_detached | intros _];
                       by apply grows_emit].
  apply grows_for_of_elem. intros ent Hent w. rewrite migratePackEntry_run. cbv zeta.
  destruct (migrateEntry _ _) as [u|err].
  - destruct (isObjectEmpty u).
    + exists []. by rewrite app_nil_r.
    + destruct (rejects _ _) as [err|].
      * match goal with |- context [caught ?pfx err ?s] =>
          destruct (grows_caught (within g) pfx err (λ _, I) s)
            as (evs & -> & Hevs) end.
        simpl. rewrite <- !app_assoc. eexists. split; [reflexivity|].
        repeat constructor; done.
      * simpl. rewrite <- !app_assoc. eexists. split; [reflexivity|].
        repeat constructor; done.
  - by apply grows_caught.
Qed.



(** X18: every write the walker makes on a pack targets an entry of
    that pack, carries the entry's identifier under [_id], and carries
    under every other key what the patch computed for the entry holds
    there. *)
Theorem pack_writes_carry_id p w :
  ∃ evs,
    trace (migrateCompendium p w).2 = trace w ++ evs
    ∧ ∀ q e u, PackUpdateEntity q e u ∈ evs →
        q = p ∧ e ∈ content p
        ∧ lookup_field "_id" u = Some (ent_id e)
        ∧ ∃ u0, migrateEntry (pack_entity p) (ent_data e) = Ok u0
                ∧ isObjectEmpty u0 = false
                ∧ ∀ k, k ≠ "_id" → lookup_field k u = lookup_field k u0.
Proof.
  set (P := λ c, match c with
                 | PackUpdateEntity q e u =>
                     q = p ∧ e ∈ content p
                     ∧ ∃ u0, migrateEntry (pack_entity p) (ent_data e) = Ok u0
                             ∧ isObjectEmpty u0 = false
                             ∧ u = set_field "_id" (ent_id e) u0
                 | _ => True
                 end).
  assert (grows P (migrateCompendium p)) as Hgrows.
  { unfold migrateCompendium. destruct (negb _); [apply grows_ret|].
    apply grows_bind; [apply grows_get | intros w0].
    repeat (apply grows_bind; [by apply grows_await | intros _]).
    apply grows_bind; [| intros _; apply grows_bind; [by apply grows_detached | intros _];
                         by apply grows_emit].
    apply grows_for_of_elem. intros ent Hent s. rewrite migratePackEntry_run. cbv zeta.
    destruct (migrateEntry _ _) as [u|err] eqn:Hu.
    - destruct (isObjectEmpty u) eqn:Hempty.
      + exists []. by rewrite app_nil_r.
      + destruct (rejects _ _) as [err|].
        * match goal with |- context [caught ?pfx err ?s] =>
            destruct (grows_caught P pfx err (λ _, I) s) as (evs & -> & Hevs) end.
          simpl. rewrite <- !app_assoc. eexists. split; [reflexivity|].
          repeat constructor; simpl; eauto.
        * simpl. rewrite <- !app_assoc. eexists. split; [reflexivity|].
          repeat constructor; simpl; eauto.
    - by apply grows_caught. }
  destruct (Hgrows w) as (evs & Htr & Hevs). exists evs. split; [done|].
  intros q e u Hin. rewrite list.Forall_forall in Hevs.
  destruct (Hevs _ Hin) as (-> & He & u0 & Hu0 & Hne & ->).
  split; [done|]. split; [done|]. split; [apply lookup_set_field_eq|].
  exists u0. split; [done|]. split; [done|].
  intros k Hk. by apply lookup_set_field_ne.
Qed.

(** X19: a failure in a round of a loop that carries a value that is no
    object is not swallowed: the handler raises a [TypeError] on it,
    nothing is logged, and the loop ends there, with the documents that
    follow not looked at. *)
Theorem non_object_failure_ends_loop k a p ent w thrown :
  kind thrown = NonObject →
  let raised := Exn TypeError ("Cannot create property 'message' on " +:+ message thrown) in
  (migrateData k (ent_data a) = Throw thrown →
     ∀ after, for_of (a :: after) (migrateDocument k) w = (Throw raised, w))
  ∧ (∀ u,
       migrateData k (ent_data a) = Ok u → isObjectEmpty u = false →
       let w1 := record (ConsoleLog ("Migrating " +:+ doctype_name k +:+ " entity "
                                     +:+ ent_name a)) w in
       rejects (trace w1) (EntityUpdate k a u) = Some thrown →
       ∀ after, for_of (a :: after) (migrateDocument k) w
                = (Throw raised, record (EntityUpdate k a u) w1))
  ∧ (migrateEntry (pack_entity p) (ent_data ent) = Throw thrown →
     ∀ after, for_of (ent :: after) (migratePackEntry p) w = (Throw raised, w))
  ∧ (∀ u,
       migrateEntry (pack_entity p) (ent_data ent) = Ok u → isObjectEmpty u = false →
       let call := PackUpdateEntity p ent (set_field "_id" (ent_id ent) u) in
       rejects (trace w) call = Some thrown →
       ∀ after, for_of (ent :: after) (migratePackEntry p) w
                = (Throw raised, record call w)).
Proof.
  intros Hk. cbv zeta. split; [|split; [|split]].
  - intros Herr after. simpl. rewrite bind_run, migrateDocument_run, Herr.
    by rewrite caught_non_object.
  - intros u Hu Hne Hrej after. simpl.
    rewrite bind_run, migrateDocument_run, Hu, Hne. cbv zeta. rewrite Hrej.
    by rewrite caught_non_object.
  - intros Herr after. simpl. rewrite bind_run, migratePackEntry_run, Herr. cbv zeta.
    by rewrite caught_non_object.
  - intros u Hu Hne Hrej after. simpl.
    rewrite bind_run, migratePackEntry_run, Hu, Hne. cbv zeta. rewrite Hrej.
    by rewrite caught_non_object.
Qed.

End Runs.




(** A write rejected with a string, in a loop over two documents and in
    a loop over two entries of a pack: the second is not reached. *)
Lemma non_object_failure_ends_loop_witness :
  (∃ w', for_of [stale_power; broken_power]
           (migrateDocument (helpers := model_helpers)
              (server := rejects_writes_with_string) Item) all_locked
         = (Throw (Exn TypeError "Cannot create property 'message' on write refused"), w')
         ∧ length (trace w') = 2)
  ∧ (∃ w', for_of [stale_power; broken_power]
             (migratePackEntry (helpers := model_helpers)
                (server := rejects_writes_with_string) item_pack) all_locked
           = (Throw (Exn TypeError "Cannot create property 'message' on write refused"), w')
           ∧ length (trace w') = 1).
Proof.
  pose proof (non_object_failure_ends_loop (helpers := model_helpers)
                (server := rejects_writes_with_string)
                Item stale_power item_pack stale_power all_locked
                (Exn NonObject "write refused") eq_refl) as Hall.
  cbv zeta in Hall. destruct Hall as (_ & Hdoc & _ & Hentry). split.
  - eexists. split; [eapply Hdoc; reflexivity | reflexivity].
  - eexists. split; [eapply Hentry; reflexivity | reflexivity].
Defined.
